(** * Pegmatite / parserlib: the PEG engine of [parser.cpp]

    A shallow embedding of the expression algebra, the parsing context,
    the left-recursion protocol of [_context::parse_non_term] /
    [_context::parse_term] and the driver [parse], followed by the
    properties of the specification that concern them. *)

From Stdlib Require Import Ascii String.
From Stdlib Require Import ZArith List Bool Arith Lia.
Import ListNotations.

(** ** Data model

    The classes [pos], [rule], [input] and [error] are declared in the
    header of the library; their fields are taken as [parser.cpp] uses
    them. *)

(** A rule is identified by its address ([rule::this_ptr()]). *)
Definition rule := nat.

(** [class pos]: the iterator is the offset from [input::begin()]. *)
Record pos : Type := mk_pos {
  m_it : nat;
  m_line : nat;
  m_col : nat
}.

(** [pos::pos(input &i)] *)
Definition pos_begin : pos := mk_pos 0 1 1.

(** [class _match] *)
Record _match : Type := mk_match {
  m_rule : rule;
  m_begin : pos;
  m_end : pos
}.

(** [class _state]: position and size of the match vector. *)
Record _state : Type := mk_state {
  st_pos : pos;
  st_matches : nat
}.

(** [class _context]. The input between [m_begin] and [m_end] is the
    list [m_input]. *)
Record _context : Type := mk_context {
  m_ws : rule;
  m_pos : pos;
  m_error_pos : pos;
  m_input : list Z;
  m_matches : list _match
}.

(** [rule::_MODE] and [rule::_state]. [rs_pos] is the [size_t] field
    [m_pos] of the rule state, an offset from the start of the input. *)
Inductive _MODE : Type := _PARSE | _REJECT | _ACCEPT.

Record rule_state : Type := mk_rule_state {
  rs_pos : Z;
  rs_mode : _MODE
}.

(** Modelled from the spec: the header that declares [rule::_state] is
    not part of the sources; the specification gives the initial state
    as (PARSE, bottom), which the [size_t] field holds as [-1]: no
    offset into an input equals it. *)
Definition rule_state_init : rule_state := mk_rule_state (-1) _PARSE.

(** The expression classes ([_char], [_string], [_set], [_term],
    [_loop0], [_loop1], [_optional], [_and], [_not], [_nl], [_seq],
    [_choice], [_ref], [_eof], [_any]). *)
Inductive _expr : Type :=
| _char (c : Z)
| _string (s : list Z)
| _set (flags : list bool)
| _term (e : _expr)
| _loop0 (e : _expr)
| _loop1 (e : _expr)
| _optional (e : _expr)
| _and (e : _expr)
| _not (e : _expr)
| _nl (e : _expr)
| _seq (l r : _expr)
| _choice (l r : _expr)
| _ref (r : rule)
| _eof
| _any.

(** A parse procedure is a callback; only its identity matters here.
    [None] is the null pointer. *)
Definition parse_proc := option nat.

(** The immutable part of the rule objects: body and parse procedure. *)
Record grammar : Type := mk_grammar {
  get_expr : rule -> _expr;
  get_parse_proc : rule -> parse_proc
}.

(** What a parse mutates: the context and the state of every rule.
    [ws_calls] is a ghost counter of the calls of [_context::parse_ws];
    no code reads it. *)
Record machine : Type := mk_machine {
  con : _context;
  rules : rule -> rule_state;
  ws_calls : nat
}.

(** Which of the two evaluation entry points is running. *)
Inductive entry : Type := NON_TERM | TERM.

(** How a call leaves: it returns a boolean, or the exception [_lr_ok]
    unwinds through it; [OutOfFuel] is the model's bound on the depth of
    the evaluation and corresponds to no exit of the code. *)
Inductive outcome : Type :=
| Ret (ok : bool)
| Throw (r : rule)
| OutOfFuel.

Definition result : Type := (outcome * machine)%type.

(** ** Operations of the context *)

Definition offset (c : _context) : nat := m_it (m_pos c).

(** [_context::end] *)
Definition end_ (c : _context) : bool := offset c =? length (m_input c).

(** [_context::symbol] *)
Definition symbol (c : _context) : Z := nth (offset c) (m_input c) 0%Z.

(** [_context::set_error_pos] *)
Definition set_error_pos (c : _context) : _context :=
  if m_it (m_error_pos c) <? m_it (m_pos c)
  then mk_context (m_ws c) (m_pos c) (m_pos c) (m_input c) (m_matches c)
  else c.

Definition with_pos (p : pos) (c : _context) : _context :=
  mk_context (m_ws c) p (m_error_pos c) (m_input c) (m_matches c).

(** [_context::next_col] *)
Definition next_col (c : _context) : _context :=
  with_pos (mk_pos (S (m_it (m_pos c))) (m_line (m_pos c)) (S (m_col (m_pos c)))) c.

(** [_context::next_line] *)
Definition next_line (c : _context) : _context :=
  with_pos (mk_pos (m_it (m_pos c)) (S (m_line (m_pos c))) 1) c.

(** [_state::_state(_context &)] *)
Definition snapshot (c : _context) : _state :=
  mk_state (m_pos c) (length (m_matches c)).

(** [_match()] leaves its fields unset; [resize] pads with it when it
    has to grow the vector. *)
Definition unset_match : _match := mk_match 0 pos_begin pos_begin.

(** [std::vector::resize] *)
Definition resize (n : nat) (l : list _match) : list _match :=
  firstn n l ++ repeat unset_match (n - length l).

(** [_context::restore] *)
Definition restore (st : _state) (c : _context) : _context :=
  mk_context (m_ws c) (st_pos st) (m_error_pos c) (m_input c)
             (resize (st_matches st) (m_matches c)).

Definition push_match (m : _match) (c : _context) : _context :=
  mk_context (m_ws c) (m_pos c) (m_error_pos c) (m_input c) (m_matches c ++ [m]).

(** ** Character level matchers *)

(** [_char::_parse] *)
Definition _char_parse (ch : Z) (c : _context) : bool * _context :=
  if negb (end_ c) && (symbol c =? ch)%Z
  then (true, next_col c)
  else (false, set_error_pos c).

(** [_string::_parse]: the loop over the characters of the string. *)
Fixpoint _string_parse (s : list Z) (c : _context) : bool * _context :=
  match s with
  | [] => (true, c)
  | ch :: s' =>
      if end_ c then (false, set_error_pos c)
      else if negb (symbol c =? ch)%Z then (false, set_error_pos c)
      else _string_parse s' (next_col c)
  end.

(** [_set::_parse]: the symbol is converted to [size_t], so a negative
    one is above every index of the flag vector. *)
Definition _set_parse (flags : list bool) (c : _context) : bool * _context :=
  if negb (end_ c) && (0 <=? symbol c)%Z
     && (Z.to_nat (symbol c) <? length flags)
     && nth (Z.to_nat (symbol c)) flags false
  then (true, next_col c)
  else (false, set_error_pos c).

(** [_any::parse_term] *)
Definition _any_parse (c : _context) : bool * _context :=
  if negb (end_ c) then (true, next_col c) else (false, set_error_pos c).

(** [_eof::parse_term] *)
Definition _eof_parse (c : _context) : bool * _context := (end_ c, c).

(** ** Machine level helpers *)

Definition with_con (c : _context) (s : machine) : machine :=
  mk_machine c (rules s) (ws_calls s).

Definition set_rule_state (r : rule) (v : rule_state) (s : machine) : machine :=
  mk_machine (con s) (fun r' => if r' =? r then v else rules s r') (ws_calls s).

(** [r.m_state.m_mode = m] *)
Definition set_mode (r : rule) (m : _MODE) (s : machine) : machine :=
  set_rule_state r (mk_rule_state (rs_pos (rules s r)) m) s.

(** [r.m_state.m_pos = p] *)
Definition set_rpos (r : rule) (p : Z) (s : machine) : machine :=
  set_rule_state r (mk_rule_state p (rs_mode (rules s r))) s.

Definition count_ws (s : machine) : machine :=
  mk_machine (con s) (rules s) (S (ws_calls s)).

(** A matcher that touches the context only. *)
Definition lift (p : _context -> bool * _context) (s : machine) : result :=
  let (ok, c) := p (con s) in (Ret ok, with_con c s).

(** Sequencing of calls: a boolean return goes on, an exception or the
    end of the fuel leaves at once. *)
Definition bind (m : result) (k : bool -> machine -> result) : result :=
  match m with
  | (Ret ok, s) => k ok s
  | (Throw r, s) => (Throw r, s)
  | (OutOfFuel, s) => (OutOfFuel, s)
  end.

Notation "'call' ok , s <- m ;; k" := (bind m (fun ok s => k))
  (at level 10, ok name, s name, m at level 100, k at level 200).

(** ** The engine *)

(** [con.parse_ws()] as the non-terminal methods of the loops and of the
    sequence call it; their terminal twins have no such call. [pr] is
    [_context::parse_term]. *)
Definition skip_ws (pr : entry -> rule -> machine -> result) (tm : entry)
  (s : machine) : result :=
  match tm with
  | NON_TERM => pr TERM (m_ws (con s)) (count_ws s)
  | TERM => (Ret true, s)
  end.

Section Engine.

Variable G : grammar.

(** [parse_expr] is the pair of virtual methods
    [_expr::parse_non_term] / [_expr::parse_term]; [loop_rest] is the
    [for(;;)] of the loops; [parse_rule] is [_context::parse_non_term] /
    [_context::parse_term]; [_parse_rule] is
    [_context::_parse_non_term] / [_context::_parse_term]; [grow] is
    the [for(;;)] that resolves a left recursion. The two methods of
    each pair have the same text up to the entry point they call, so
    one function with the entry [tm] stands for both. Every call takes
    one unit of [fuel], and so does every iteration of a loop. *)
Fixpoint parse_expr (fuel : nat) (tm : entry) (e : _expr) (s : machine)
  {struct fuel} : result :=
  match fuel with
  | 0 => (OutOfFuel, s)
  | S f =>
    let parse_ws := skip_ws (parse_rule f) tm in
    match e with
    | _char c => lift (_char_parse c) s
    | _string str => lift (_string_parse str) s
    | _set flags => lift (_set_parse flags) s
    | _any => lift _any_parse s
    | _eof => lift _eof_parse s
    | _term e1 => parse_expr f TERM e1 s
    | _loop0 e1 =>
        call _, s0 <- parse_ws s;;
        let st := snapshot (con s0) in
        call ok, s1 <- parse_expr f tm e1 s0;;
        if ok then loop_rest f tm e1 s1
        else (Ret true, with_con (restore st (con s1)) s1)
    | _loop1 e1 =>
        call _, s0 <- parse_ws s;;
        call ok, s1 <- parse_expr f tm e1 s0;;
        if ok then loop_rest f tm e1 s1
        else (Ret false, s1)
    | _optional e1 =>
        let st := snapshot (con s) in
        call ok, s1 <- parse_expr f tm e1 s;;
        if ok then (Ret true, s1)
        else (Ret true, with_con (restore st (con s1)) s1)
    | _and e1 =>
        let st := snapshot (con s) in
        call ok, s1 <- parse_expr f tm e1 s;;
        (Ret ok, with_con (restore st (con s1)) s1)
    | _not e1 =>
        let st := snapshot (con s) in
        call ok, s1 <- parse_expr f tm e1 s;;
        (Ret (negb ok), with_con (restore st (con s1)) s1)
    | _nl e1 =>
        call ok, s1 <- parse_expr f tm e1 s;;
        if ok then (Ret true, with_con (next_line (con s1)) s1)
        else (Ret false, s1)
    | _seq l r =>
        call ok, s1 <- parse_expr f tm l s;;
        if ok then
          call _, s2 <- parse_ws s1;;
          parse_expr f tm r s2
        else (Ret false, s1)
    | _choice l r =>
        let st := snapshot (con s) in
        call ok, s1 <- parse_expr f tm l s;;
        if ok then (Ret true, s1)
        else parse_expr f tm r (with_con (restore st (con s1)) s1)
    | _ref r => parse_rule f tm r s
    end
  end

with loop_rest (fuel : nat) (tm : entry) (e : _expr) (s : machine)
  {struct fuel} : result :=
  match fuel with
  | 0 => (OutOfFuel, s)
  | S f =>
    call _, s0 <- skip_ws (parse_rule f) tm s;;
    let st := snapshot (con s0) in
    call ok, s1 <- parse_expr f tm e s0;;
    if ok then loop_rest f tm e s1
    else (Ret true, with_con (restore st (con s1)) s1)
  end

with parse_rule (fuel : nat) (tm : entry) (r : rule) (s : machine)
  {struct fuel} : result :=
  match fuel with
  | 0 => (OutOfFuel, s)
  | S f =>
    let old_state := rules s r in
    let new_pos := Z.of_nat (offset (con s)) in
    let lr := (new_pos =? rs_pos (rules s r))%Z in
    let s := set_rpos r new_pos s in
    match rs_mode (rules s r) with
    | _PARSE =>
        if lr then
          (* the seed, in REJECT mode; no handler around it *)
          match _parse_rule f tm r (set_mode r _REJECT s) with
          | (Ret true, s1) =>
              (* the loop in ACCEPT mode, then
                 [r.m_state = old_state; throw _lr_ok(r.this_ptr())] *)
              match grow f tm r (set_mode r _ACCEPT s1) with
              | (Ret _, s2) => (Throw r, set_rule_state r old_state s2)
              | other => other
              end
          | (Ret false, s1) => (Ret false, set_rule_state r old_state s1)
          | other => other
          end
        else
          (* [try { ok = _parse_non_term(r); } catch (const _lr_ok &ex)] *)
          match _parse_rule f tm r s with
          | (Ret ok, s1) => (Ret ok, set_rule_state r old_state s1)
          | (Throw r', s1) =>
              if r' =? r then (Ret true, set_rule_state r old_state s1)
              else (Throw r', set_rule_state r old_state s1)
          | other => other
          end
    | _REJECT =>
        if lr then (Ret false, set_rule_state r old_state s)
        else
          (* no handler: an exception leaves through [bind] at once *)
          call ok, s1 <- _parse_rule f tm r (set_mode r _PARSE s);;
          (Ret ok, set_rule_state r old_state (set_mode r _REJECT s1))
    | _ACCEPT =>
        if lr then (Ret true, set_rule_state r old_state s)
        else
          call ok, s1 <- _parse_rule f tm r (set_mode r _PARSE s);;
          (Ret ok, set_rule_state r old_state (set_mode r _ACCEPT s1))
    end
  end

with _parse_rule (fuel : nat) (tm : entry) (r : rule) (s : machine)
  {struct fuel} : result :=
  match fuel with
  | 0 => (OutOfFuel, s)
  | S f =>
    match get_parse_proc G r with
    | Some _ =>
        let b := m_pos (con s) in
        call ok, s1 <- parse_expr f tm (get_expr G r) s;;
        if ok then
          (Ret true, with_con (push_match (mk_match r b (m_pos (con s1))) (con s1)) s1)
        else (Ret false, s1)
    | None => parse_expr f tm (get_expr G r) s
    end
  end

with grow (fuel : nat) (tm : entry) (r : rule) (s : machine)
  {struct fuel} : result :=
  match fuel with
  | 0 => (OutOfFuel, s)
  | S f =>
    let st := snapshot (con s) in
    let s0 := set_rpos r (Z.of_nat (offset (con s))) s in
    call ok, s1 <- _parse_rule f tm r s0;;
    if ok then grow f tm r s1
    else (Ret true, with_con (restore st (con s1)) s1)
  end.

End Engine.

(** ** The driver *)

Inductive error_type : Type := ERROR_SYNTAX_ERROR | ERROR_INVALID_EOF.

(** [class error]: an [input_range] and a type. *)
Record error : Type := mk_error {
  err_begin : pos;
  err_end : pos;
  m_type : error_type
}.

(** [_next_pos] *)
Definition _next_pos (p : pos) : pos :=
  mk_pos (S (m_it p)) (m_line p) (S (m_col p)).

(** [_syntax_error]. The message it builds, and then drops, reads the
    symbol [*con.m_error_pos.m_it], and [_next_pos] increments that
    iterator. [None] is the call with the iterator at [m_end]: the read
    is outside the input and the behaviour of the program is undefined
    from there. *)
Definition _syntax_error (c : _context) : option error :=
  if m_it (m_error_pos c) <? length (m_input c)
  then Some (mk_error (m_error_pos c) (_next_pos (m_error_pos c))
               ERROR_SYNTAX_ERROR)
  else None.

(** [_eof_error] *)
Definition _eof_error (c : _context) : error :=
  mk_error (m_error_pos c) (m_error_pos c) ERROR_INVALID_EOF.

(** One invocation [p(m.m_begin, m.m_end, d)] of a parse procedure. *)
Record proc_call : Type := mk_proc_call {
  pc_proc : nat;
  pc_begin : pos;
  pc_end : pos
}.

(** How [parse] leaves: it returns ([dispatched] is [None] when
    [do_parse_procs] was not run, else the calls it made, in order), it
    calls through a null parse procedure, [_syntax_error] reads the
    symbol at [m_end], [_lr_ok] escapes it, or the fuel of the model
    ends. *)
Inductive parse_exit : Type :=
| Returns (ok : bool) (el : list error) (dispatched : option (list proc_call))
| NullCall
| ReadsEnd
| Uncaught (r : rule)
| Unfinished.

Section Driver.

Variable G : grammar.

(** [_context::do_parse_procs]: [None] when a record's rule has no
    parse procedure, which the loop would call all the same. *)
Fixpoint do_parse_procs (ms : list _match) : option (list proc_call) :=
  match ms with
  | [] => Some []
  | m :: ms' =>
      match get_parse_proc G (m_rule m) with
      | None => None
      | Some p =>
          match do_parse_procs ms' with
          | None => None
          | Some calls => Some (mk_proc_call p (m_begin m) (m_end m) :: calls)
          end
      end
  end.

(** [_context::_context(input &, rule &)] *)
Definition context_init (i : list Z) (ws : rule) : _context :=
  mk_context ws pos_begin pos_begin i [].

(** [parse]. [rs] is the state of the rule objects when it is called. *)
Definition parse (fuel : nat) (i : list Z) (g ws : rule) (el : list error)
  (rs : rule -> rule_state) : parse_exit :=
  let s := mk_machine (context_init i ws) rs 0 in
  match parse_rule G fuel TERM ws s with
  | (Ret _, s1) =>
      match parse_rule G fuel NON_TERM g s1 with
      | (Ret false, s2) =>
          match _syntax_error (con s2) with
          | Some e => Returns false (el ++ [e]) None
          | None => ReadsEnd
          end
      | (Ret true, s2) =>
          match parse_rule G fuel TERM ws s2 with
          | (Ret _, s3) =>
              if negb (end_ (con s3)) then
                if m_it (m_error_pos (con s3)) <? length (m_input (con s3))
                then
                  match _syntax_error (con s3) with
                  | Some e => Returns false (el ++ [e]) None
                  | None => ReadsEnd
                  end
                else Returns false (el ++ [_eof_error (con s3)]) None
              else
                match do_parse_procs (m_matches (con s3)) with
                | Some calls => Returns true el (Some calls)
                | None => NullCall
                end
          | (Throw r, _) => Uncaught r
          | (OutOfFuel, _) => Unfinished
          end
      | (Throw r, _) => Uncaught r
      | (OutOfFuel, _) => Unfinished
      end
  | (Throw r, _) => Uncaught r
  | (OutOfFuel, _) => Unfinished
  end.

End Driver.

(** ** Notions used by the statements *)

(** The rule objects before any parse. *)
Definition fresh_rules : rule -> rule_state := fun _ => rule_state_init.

(** A fresh machine on the input [i], whitespace rule 0. *)
Definition start (i : list Z) : machine :=
  mk_machine (context_init i 0) fresh_rules 0.

(** [skips] tells whether an evaluation may be entered in non-terminal
    mode, where it calls [parse_ws]; terminal mode is always allowed. *)
Definition allowed (skips : bool) (tm : entry) : Prop :=
  match tm with
  | TERM => True
  | NON_TERM => skips = true
  end.

(** The five functions of the engine keep the relation [R] between the
    machine before a call and the machine after it, however the call
    leaves. *)
Definition kept (G : grammar) (R : machine -> machine -> Prop) (skips : bool)
  (fuel : nat) : Prop :=
  (forall tm e s, allowed skips tm -> R s (snd (parse_expr G fuel tm e s))) /\
  (forall tm e s, allowed skips tm -> R s (snd (loop_rest G fuel tm e s))) /\
  (forall tm r s, allowed skips tm -> R s (snd (parse_rule G fuel tm r s))) /\
  (forall tm r s, allowed skips tm -> R s (snd (_parse_rule G fuel tm r s))) /\
  (forall tm r s, allowed skips tm -> R s (snd (grow G fuel tm r s))).

(** The call has left, by a return or by [_lr_ok]. *)
Definition settled (r : result) : Prop := fst r <> OutOfFuel.

(** More fuel does not change a call that has left. *)
Definition stable (G : grammar) (f : nat) : Prop :=
  (forall f' tm e s, f <= f' -> settled (parse_expr G f tm e s) ->
     parse_expr G f' tm e s = parse_expr G f tm e s) /\
  (forall f' tm e s, f <= f' -> settled (loop_rest G f tm e s) ->
     loop_rest G f' tm e s = loop_rest G f tm e s) /\
  (forall f' tm r s, f <= f' -> settled (parse_rule G f tm r s) ->
     parse_rule G f' tm r s = parse_rule G f tm r s) /\
  (forall f' tm r s, f <= f' -> settled (_parse_rule G f tm r s) ->
     _parse_rule G f' tm r s = _parse_rule G f tm r s) /\
  (forall f' tm r s, f <= f' -> settled (grow G f tm r s) ->
     grow G f' tm r s = grow G f tm r s).

(** The iterator of the furthest error position. *)
Definition error_offset (s : machine) : nat := m_it (m_error_pos (con s)).

(** The match log. *)
Definition log (s : machine) : list _match := m_matches (con s).

(** The rule of a match record has a parse procedure. *)
Definition registered (G : grammar) (m : _match) : Prop :=
  get_parse_proc G (m_rule m) <> None.

(** No call shortens the log below its length on entry, so every
    [restore] truncates, and the records stay registered. *)
Definition log_grows (G : grammar) (s s' : machine) : Prop :=
  length (log s) <= length (log s') /\
  (Forall (registered G) (log s) -> Forall (registered G) (log s')).

(** The call came back with a boolean. *)
Definition returned (r : result) : Prop := exists ok, fst r = Ret ok.

(** The SYNTAX error at the furthest error position of [c]. *)
Definition syntax_error_at (c : _context) : error :=
  mk_error (m_error_pos c) (_next_pos (m_error_pos c)) ERROR_SYNTAX_ERROR.

(** The error [parse] reports when the grammar matched and the input
    is not exhausted. *)
Definition leftover_error (c : _context) : error :=
  if m_it (m_error_pos c) <? length (m_input c)
  then syntax_error_at c
  else _eof_error c.


(** Number of leading characters of [cs] that [rest] starts with. *)
Fixpoint matched (cs rest : list Z) : nat :=
  match cs, rest with
  | ch :: cs', x :: rest' =>
      if (x =? ch)%Z then S (matched cs' rest') else 0
  | _, _ => 0
  end.

(** [k] calls of [next_col]. *)
Definition advance (k : nat) (p : pos) : pos :=
  mk_pos (k + m_it p) (m_line p) (k + m_col p).

(** The expressions whose own code leaves the context where it was when
    they return false: the single-character matchers, the lookaheads,
    the operators that never return false, and the wrappers whose
    failure is the failure of such an operand. A sequence, a string of
    two characters or more, a one-or-more loop in non-terminal mode
    and a rule reference are not among them. *)
Fixpoint restores_on_failure (tm : entry) (e : _expr) : bool :=
  match e with
  | _char _ | _set _ | _any | _eof => true
  | _string cs => length cs <=? 1
  | _term e1 => restores_on_failure TERM e1
  | _loop0 _ | _optional _ | _and _ | _not _ => true
  | _loop1 e1 =>
      match tm with
      | TERM => restores_on_failure TERM e1
      | NON_TERM => false
      end
  | _nl e1 => restores_on_failure tm e1
  | _seq _ _ => false
  | _choice _ r => restores_on_failure tm r
  | _ref _ => false
  end.

(** Position and length of the match log agree. *)
Definition same_snapshot (s s' : machine) : Prop :=
  m_pos (con s') = m_pos (con s) /\ length (log s') = length (log s).

(** ** Grammars and machines of the concrete runs *)

(** Whitespace is any run of blanks. *)
Definition ws_blanks : _expr := _loop0 (_char 32).

(** [range('0', '9')] *)
Definition digits : _expr := _set (repeat false 48 ++ repeat true 10).

(** The grammar [expr = add | sub | num], [add = expr '+' expr],
    [sub = expr '-' expr], [num = term(+[0-9])], with blanks as
    whitespace and a parse procedure on [num], [add] and [sub]. Rule 0
    is the whitespace, 1 is [expr], 2 is [num], 3 is [add], 4 is [sub]. *)
Definition G_calc : grammar :=
  mk_grammar
    (fun r => match r with
              | 0 => ws_blanks
              | 1 => _choice (_ref 3) (_choice (_ref 4) (_ref 2))
              | 2 => _term (_loop1 digits)
              | 3 => _seq (_ref 1) (_seq (_char 43) (_ref 1))
              | _ => _seq (_ref 1) (_seq (_char 45) (_ref 1))
              end)
    (fun r => match r with
              | 2 => Some 2
              | 3 => Some 3
              | 4 => Some 4
              | _ => None
              end).

(** The rule [A = A | 'a'], with blanks as whitespace. Rule 0 is the
    whitespace rule, rule 1 is [A]. *)
Definition G_nullable_lr : grammar :=
  mk_grammar
    (fun r => match r with
              | 0 => ws_blanks
              | _ => _choice (_ref 1) (_char 97)
              end)
    (fun _ => None).

(** The rule [A = A 'b' | 'a' A | 'c']: on the input [ac] the second
    alternative of the seed attempt at offset 0 calls [A] again at
    offset 1, in REJECT mode and away from its recorded position. *)
Definition G_nested_lr : grammar :=
  mk_grammar
    (fun r => match r with
              | 0 => ws_blanks
              | _ => _choice (_seq (_ref 1) (_char 98))
                       (_choice (_seq (_char 97) (_ref 1)) (_char 99))
              end)
    (fun _ => None).

(** The machine at that inner call: [a] and the whitespace after it
    are behind, [A] is in REJECT mode with offset 0 recorded. *)
Definition s_inner_call : machine :=
  mk_machine
    (mk_context 0 (mk_pos 1 1 2) (mk_pos 1 1 2) [97; 99]%Z [])
    (fun r => if r =? 1 then mk_rule_state 0 _REJECT else rule_state_init)
    1.

(** A machine in which rule 1 is in ACCEPT mode with the current offset
    recorded, as inside an iteration of its grow loop. *)
Definition s_growing : machine :=
  mk_machine (mk_context 0 (mk_pos 1 1 2) (mk_pos 1 1 2) [49; 43; 50]%Z [])
             (fun r => if r =? 1 then mk_rule_state 1 _ACCEPT
                       else rule_state_init)
             0.

(** ** The constructors of the set expression *)

(** The integer types are those of the 64-bit targets the library is
    built for: an [int] of 32 bits and a [size_t] of 64 bits. Whether
    [char] is signed is left to the compiler; the constructor from a
    string takes it as an argument. *)
Definition INT_MIN : Z := -2147483648.
Definition INT_MAX : Z := 2147483647.
Definition SIZE_MAX : Z := 18446744073709551615.

(** An [int]. *)
Record int : Type := mk_int {
  int_val :> Z;
  int_fits : ((INT_MIN <=? int_val) && (int_val <=? INT_MAX))%Z = true
}.

(** The value of the [char] that holds the byte [a]. *)
Definition char_value (char_is_signed : bool) (a : ascii) : Z :=
  let n := Z.of_N (N_of_ascii a) in
  if char_is_signed && (128 <=? n)%Z then (n - 256)%Z else n.

(** The conversion of an integer value to [size_t]. *)
Definition to_size_t (z : Z) : Z := (z mod (SIZE_MAX + 1))%Z.

(** [std::vector<bool>::max_size()]: no vector has more flags than
    [PTRDIFF_MAX]. *)
Definition max_size : Z := 9223372036854775807.

(** How a constructor of [_set] leaves: it returns with the vector
    [m_set] built, an [assert] fails, [resize] throws
    [std::length_error], or the behaviour is undefined (a write outside
    the vector, an [int] that overflows). *)
Inductive construction : Type :=
| Built (m_set : list bool)
| AssertionFailed
| LengthError
| Undefined.

(** The flags of [m_set] with the one at [i] set, for a vector that has
    the index [i]. *)
Fixpoint set_flag (i : nat) (flags : list bool) : list bool :=
  match i, flags with
  | 0, _ :: t => true :: t
  | S i', x :: t => x :: set_flag i' t
  | _, [] => []
  end.

(** [m_set.resize(n)]: the vector is cut or filled with false flags to
    the size [n]; a size beyond [max_size] throws. *)
Definition resize_flags (n : Z) (m_set : list bool) : construction :=
  if (max_size <? n)%Z then LengthError
  else Built (firstn (Z.to_nat n) m_set
              ++ repeat false (Z.to_nat n - length m_set)).

(** [m_set[i] = true]: [operator[]] does not check the index. *)
Definition write_flag (i : Z) (m_set : list bool) : construction :=
  if (i <? Z.of_nat (length m_set))%Z
  then Built (set_flag (Z.to_nat i) m_set)
  else Undefined.

(** [_set::_add(size_t i)]; [i + 1] is computed in [size_t]. *)
Definition _add (i : Z) (m_set : list bool) : construction :=
  match
    (if (Z.of_nat (length m_set) <=? i)%Z
     then resize_flags (to_size_t (i + 1)) m_set
     else Built m_set)
  with
  | Built m_set' => write_flag i m_set'
  | failed => failed
  end.

(** The characters of a string up to the first zero, which ends it. *)
Fixpoint c_str (s : string) : list ascii :=
  match s with
  | EmptyString => []
  | String a s' => if (N_of_ascii a =? 0)%N then [] else a :: c_str s'
  end.

(** The loop of [_set::_set(const char *s)] over the values of the
    characters: [_add] on each, the [char] converted to [size_t]. *)
Fixpoint add_chars (cs : list Z) (m_set : list bool) : construction :=
  match cs with
  | [] => Built m_set
  | c :: cs' =>
      match _add (to_size_t c) m_set with
      | Built m_set' => add_chars cs' m_set'
      | failed => failed
      end
  end.

(** [_set::_set(const char *s)] *)
Definition _set_of_string (char_is_signed : bool) (s : string)
  : construction :=
  add_chars (map (char_value char_is_signed) (c_str s)) [].

(** The loop [for(; min <= max; ++min) m_set[(size_t)min] = true] of
    [_set::_set(int min, int max)], with [k] the number of values from
    [min] to [max], so that [min <= max] is [0 < k]. [++min] has no
    value at [INT_MAX]. *)
Fixpoint range_loop (k : nat) (min : Z) (m_set : list bool) : construction :=
  match k with
  | 0 => Built m_set
  | S k' =>
      match write_flag (to_size_t min) m_set with
      | Built m_set' =>
          if (min =? INT_MAX)%Z then Undefined
          else range_loop k' (min + 1) m_set'
      | failed => failed
      end
  end.

(** [_set::_set(int min, int max)], with its assertions compiled in. *)
Definition _set_of_range (min max : int) : construction :=
  if negb (0 <=? min)%Z then AssertionFailed
  else if negb (min <=? max)%Z then AssertionFailed
  else
    match resize_flags (to_size_t (to_size_t max + 1)) [] with
    | Built m_set => range_loop (Z.to_nat (max + 1 - min)) min m_set
    | failed => failed
    end.

(** The flags [_add] leaves for an index that fits: the vector filled
    up to the index, and the flag set. *)
Definition added (i : nat) (flags : list bool) : list bool :=
  set_flag i
    (if length flags <=? i
     then flags ++ repeat false (S i - length flags)
     else flags).

(** A vector of [max + 1] flags with those from [min] to [max] set. *)
Definition fill_range (min max : nat) : list bool :=
  fold_left (fun flags i => set_flag i flags)
    (seq min (S max - min)) (repeat false (S max)).

(** ** Notions used by the further properties *)

(** The log of [s'] is the log of [s] with records added at its end. *)
Definition log_extends (s s' : machine) : Prop :=
  exists added, log s' = log s ++ added.

(** The iterator is between [m_begin] and [m_end]. *)
Definition in_bounds (s : machine) : Prop :=
  offset (con s) <= length (m_input (con s)).

(** A record whose range is well formed and lies in an input of
    length [n]. *)
Definition in_range (n : nat) (m : _match) : Prop :=
  m_it (m_begin m) <= m_it (m_end m) /\ m_it (m_end m) <= n.

(** What a call keeps of the position and of the ranges of the log:
    the input is the same, the position is not before the one on
    entry, the log is not shorter, and a position, an error position
    and records that were inside the input still are. *)
Definition stays_in_input (s s' : machine) : Prop :=
  m_input (con s') = m_input (con s) /\
  offset (con s) <= offset (con s') /\
  length (log s) <= length (log s') /\
  (in_bounds s -> in_bounds s') /\
  (in_bounds s ->
   error_offset s <= length (m_input (con s)) ->
   error_offset s' <= length (m_input (con s))) /\
  (in_bounds s ->
   Forall (in_range (length (m_input (con s)))) (log s) ->
   Forall (in_range (length (m_input (con s)))) (log s')).

(** The expressions whose two methods cannot differ: no sequence, loop
    or reference outside a [_term], which runs its operand in terminal
    mode from both. *)
Fixpoint ws_free (e : _expr) : bool :=
  match e with
  | _char _ | _string _ | _set _ | _any | _eof => true
  | _term _ => true
  | _optional e1 | _and e1 | _not e1 | _nl e1 => ws_free e1
  | _choice l r => ws_free l && ws_free r
  | _seq _ _ | _loop0 _ | _loop1 _ | _ref _ => false
  end.

(** The calls of [do_parse_procs] follow the records: same ranges, in
    the same order, each with the procedure of the record's rule. *)
Definition call_of (G : grammar) (m : _match) (c : proc_call) : Prop :=
  get_parse_proc G (m_rule m) = Some (pc_proc c) /\
  pc_begin c = m_begin m /\ pc_end c = m_end m.

(** A rule that was in its initial state before a call is in its
    initial state after it. *)
Definition fresh_kept (s s' : machine) : Prop :=
  forall b, rules s b = rule_state_init -> rules s' b = rule_state_init.

(** Every call that has left keeps the initial states; the grow loop of
    a rule keeps those of the other rules. *)
Definition scoped (G : grammar) (f : nat) : Prop :=
  (forall tm e s, settled (parse_expr G f tm e s) ->
     fresh_kept s (snd (parse_expr G f tm e s))) /\
  (forall tm e s, settled (loop_rest G f tm e s) ->
     fresh_kept s (snd (loop_rest G f tm e s))) /\
  (forall tm r s, settled (parse_rule G f tm r s) ->
     fresh_kept s (snd (parse_rule G f tm r s))) /\
  (forall tm r s, settled (_parse_rule G f tm r s) ->
     fresh_kept s (snd (_parse_rule G f tm r s))) /\
  (forall tm r s, settled (grow G f tm r s) ->
     forall b, b <> r -> rules s b = rule_state_init ->
               rules (snd (grow G f tm r s)) b = rule_state_init).

(** ** The map from rules to parse procedures *)

(** The static [_parse_proc_map], a null pointer until
    [_init_parse_proc_map] allocates the map, and the field
    [m_parse_proc] of every rule object. A key that the map does not
    hold is a rule mapped to [None]. *)
Record registry : Type := mk_registry {
  _parse_proc_map : option (rule -> parse_proc);
  m_parse_proc : rule -> parse_proc
}.

(** [_get_parse_proc] *)
Definition _get_parse_proc (w : registry) (r : rule) : parse_proc :=
  match _parse_proc_map w with
  | None => None
  | Some m => m r
  end.

(** The end of every constructor of [rule]:
    [m_parse_proc = _get_parse_proc(this)]. *)
Definition rule_construct (r : rule) (w : registry) : registry :=
  mk_registry (_parse_proc_map w)
    (fun r' => if r' =? r then _get_parse_proc w r else m_parse_proc w r').

(** [rule::set_parse_proc]; [None] is the failed [assert(p)]. *)
Definition set_parse_proc (r : rule) (p : parse_proc) (w : registry)
  : option registry :=
  match p with
  | None => None
  | Some _ =>
      let m := match _parse_proc_map w with
               | None => fun _ => None
               | Some m => m
               end in
      Some (mk_registry
              (Some (fun r' => if r' =? r then p else m r'))
              (fun r' => if r' =? r then p else m_parse_proc w r'))
  end.

(** ** Line and column counters *)

(** Lines and columns are counted from 1. *)
Definition one_based (p : pos) : Prop := 1 <= m_line p /\ 1 <= m_col p.

(** A record whose two positions are counted from 1 and whose end is
    not on an earlier line than its begin. *)
Definition counted (m : _match) : Prop :=
  one_based (m_begin m) /\ one_based (m_end m) /\
  m_line (m_begin m) <= m_line (m_end m).

(** What a call keeps of the counters: the line does not go back, the
    log does not get shorter, and a position, an error position and
    records that were counted from 1 still are. *)
Definition counters_kept (s s' : machine) : Prop :=
  m_line (m_pos (con s)) <= m_line (m_pos (con s')) /\
  length (log s) <= length (log s') /\
  (one_based (m_pos (con s)) -> one_based (m_pos (con s'))) /\
  (one_based (m_pos (con s)) -> one_based (m_error_pos (con s)) ->
   one_based (m_error_pos (con s'))) /\
  (one_based (m_pos (con s)) -> Forall counted (log s) ->
   Forall counted (log s')).

(** ** Unfolding equations *)

Lemma bind_ret (ok : bool) (s : machine) (k : bool -> machine -> result) :
  bind (Ret ok, s) k = k ok s.
Proof. reflexivity. Qed.

(** ** Properties kept by every step of the engine *)

Section Preservation.

Variable G : grammar.

(** [R s s'] relates the machine before a call to the machine after it. *)
Variable R : machine -> machine -> Prop.
Variable skips : bool.

Hypothesis R_refl : forall s, R s s.
Hypothesis R_trans : forall s1 s2 s3, R s1 s2 -> R s2 s3 -> R s1 s3.
Hypothesis R_next_col : forall s, R s (with_con (next_col (con s)) s).
Hypothesis R_next_line : forall s, R s (with_con (next_line (con s)) s).
Hypothesis R_set_error_pos : forall s, R s (with_con (set_error_pos (con s)) s).
Hypothesis R_restore : forall s0 s1,
  R s0 s1 -> R s0 (with_con (restore (snapshot (con s0)) (con s1)) s1).
Hypothesis R_push : forall s r b,
  get_parse_proc G r <> None ->
  R s (with_con (push_match (mk_match r b (m_pos (con s))) (con s)) s).
Hypothesis R_rule : forall s r v, R s (set_rule_state r v s).
Hypothesis R_count_ws : forall s, skips = true -> R s (count_ws s).

Lemma R_char (c : Z) (s : machine) : R s (snd (lift (_char_parse c) s)).
Proof.
  unfold lift, _char_parse.
  destruct (negb (end_ (con s)) && (symbol (con s) =? c)%Z); simpl; auto.
Qed.

Lemma R_string (str : list Z) (s : machine) :
  R s (snd (lift (_string_parse str) s)).
Proof.
  revert s. induction str as [| ch str IH]; intros s.
  - unfold lift; simpl. destruct s; apply R_refl.
  - unfold lift; simpl.
    destruct (end_ (con s)); [simpl; auto |].
    destruct (negb (symbol (con s) =? ch)%Z); [simpl; auto |].
    specialize (IH (with_con (next_col (con s)) s)).
    unfold lift in IH; simpl in IH.
    destruct (_string_parse str (next_col (con s))) as [ok c'].
    simpl in *. eapply R_trans; [apply R_next_col | exact IH].
Qed.

Lemma R_set (flags : list bool) (s : machine) :
  R s (snd (lift (_set_parse flags) s)).
Proof.
  unfold lift, _set_parse.
  match goal with |- context [if ?b then _ else _] => destruct b end;
    simpl; auto.
Qed.

Lemma R_any (s : machine) : R s (snd (lift _any_parse s)).
Proof.
  unfold lift, _any_parse. destruct (negb (end_ (con s))); simpl; auto.
Qed.

Lemma R_eof (s : machine) : R s (snd (lift _eof_parse s)).
Proof.
  unfold lift, _eof_parse; simpl. destruct s; apply R_refl.
Qed.

Lemma R_set_rpos (r : rule) (p : Z) (s : machine) : R s (set_rpos r p s).
Proof. apply R_rule. Qed.

Lemma R_set_mode (r : rule) (m : _MODE) (s : machine) : R s (set_mode r m s).
Proof. apply R_rule. Qed.

Ltac after_call t H :=
  let E := fresh "E" in
  let H1 := fresh "H" in
  let thrown := fresh "thrown" in
  let m := fresh "m" in
  pose proof H as H1;
  destruct t as [[[|] | thrown | ] m] eqn:E;
  simpl in H1 |- *.

Ltac link n :=
  lazymatch n with
  | O => fail
  | S ?k =>
      first
        [ eassumption
        | apply R_refl
        | apply R_rule
        | apply R_next_line
        | apply R_restore; link k
        | match goal with
          | H : R ?a _ |- R ?a _ => eapply R_trans; [exact H | link k]
          end
        | eapply R_trans; [apply R_rule | link k]
        | eapply R_trans; [| apply R_rule]; link k
        | eapply R_trans; [| apply R_next_line]; link k
        | eapply R_trans; [| apply R_restore; eassumption]; link k ]
  end.

Ltac chain := simpl; try solve [link 6].

Lemma kept_parse_ws (f : nat) (tm : entry) (s : machine) :
  kept G R skips f -> allowed skips tm ->
  R s (snd (skip_ws (parse_rule G f) tm s)).
Proof.
  intros (_ & _ & IHr & _) Ha. destruct tm; simpl.
  - eapply R_trans; [apply R_count_ws; exact Ha | apply IHr; exact I].
  - apply R_refl.
Qed.

Lemma kept_iteration (f : nat) (tm : entry) (e : _expr) (s : machine) :
  kept G R skips f -> allowed skips tm ->
  R s (snd (call _, s0 <- skip_ws (parse_rule G f) tm s;;
            let st := snapshot (con s0) in
            call ok, s1 <- parse_expr G f tm e s0;;
            if ok then loop_rest G f tm e s1
            else (Ret true, with_con (restore st (con s1)) s1))).
Proof.
  intros K Ha. pose proof (kept_parse_ws f tm s K Ha) as Hw.
  destruct K as (IHe & IHl & _).
  revert Hw.
  match goal with |- context [bind ?t _] => destruct t as [[okw | rw | ] s0] end;
    simpl; intros Hw; auto.
  after_call (parse_expr G f tm e s0) (IHe tm e s0 Ha); chain.
  eapply R_trans; [exact Hw |]. eapply R_trans; [exact H | apply IHl; exact Ha].
Qed.

Lemma kept_all : forall fuel, kept G R skips fuel.
Proof.
  induction fuel as [| f K].
  - repeat split; intros; simpl; apply R_refl.
  - pose proof K as (IHe & IHl & IHr & IHb & IHg).
    repeat split.
    + (* parse_expr *)
      intros tm e s Ha. destruct e; simpl.
      * apply R_char.
      * apply R_string.
      * apply R_set.
      * apply IHe. exact I.
      * apply kept_iteration; assumption.
      * pose proof (kept_parse_ws f tm s K Ha) as Hw.
        revert Hw.
        match goal with |- context [bind ?t _] =>
          destruct t as [[okw | rw | ] s0] end; simpl; intros Hw; auto.
        after_call (parse_expr G f tm e s0) (IHe tm e s0 Ha); chain.
        eapply R_trans; [exact Hw |].
        eapply R_trans; [exact H | apply IHl; exact Ha].
      * after_call (parse_expr G f tm e s) (IHe tm e s Ha); chain.
      * after_call (parse_expr G f tm e s) (IHe tm e s Ha); chain.
      * after_call (parse_expr G f tm e s) (IHe tm e s Ha); chain.
      * after_call (parse_expr G f tm e s) (IHe tm e s Ha); chain.
      * after_call (parse_expr G f tm e1 s) (IHe tm e1 s Ha); chain.
        pose proof (kept_parse_ws f tm m K Ha) as Hw.
        revert Hw.
        match goal with |- context [bind ?t _] =>
          destruct t as [[okw | rw | ] s0] end; simpl; intros Hw; chain.
        eapply R_trans; [exact H |].
        eapply R_trans; [exact Hw | apply IHe; exact Ha].
      * after_call (parse_expr G f tm e1 s) (IHe tm e1 s Ha); chain.
        eapply R_trans; [| apply IHe; exact Ha]. chain.
      * apply IHr; exact Ha.
      * apply R_eof.
      * apply R_any.
    + (* loop_rest *)
      intros tm e s Ha. simpl. apply kept_iteration; assumption.
    + (* parse_rule *)
      intros tm r s Ha. simpl. rewrite Nat.eqb_refl. simpl.
      set (s' := set_rpos r (Z.of_nat (offset (con s))) s).
      assert (Hs' : R s s') by apply R_rule.
      destruct (rs_mode (rules s r)).
      * destruct (Z.of_nat (offset (con s)) =? rs_pos (rules s r))%Z.
        -- after_call (_parse_rule G f tm r (set_mode r _REJECT s'))
             (IHb tm r (set_mode r _REJECT s') Ha).
           ++ assert (Hm : R s m) by chain.
              after_call (grow G f tm r (set_mode r _ACCEPT m))
                (IHg tm r (set_mode r _ACCEPT m) Ha); chain.
           ++ chain.
           ++ chain.
           ++ chain.
        -- after_call (_parse_rule G f tm r s') (IHb tm r s' Ha); chain.
           destruct (thrown =? r); simpl; chain.
      * destruct (Z.of_nat (offset (con s)) =? rs_pos (rules s r))%Z;
          simpl; chain.
        after_call (_parse_rule G f tm r (set_mode r _PARSE s'))
          (IHb tm r (set_mode r _PARSE s') Ha); chain.
        all: assert (Hm : R s m) by chain; chain.
      * destruct (Z.of_nat (offset (con s)) =? rs_pos (rules s r))%Z;
          simpl; chain.
        after_call (_parse_rule G f tm r (set_mode r _PARSE s'))
          (IHb tm r (set_mode r _PARSE s') Ha); chain.
        all: assert (Hm : R s m) by chain; chain.
    + (* _parse_rule *)
      intros tm r s Ha. simpl.
      destruct (get_parse_proc G r) as [p |] eqn:Hp.
      * after_call (parse_expr G f tm (get_expr G r) s)
          (IHe tm (get_expr G r) s Ha); chain.
        eapply R_trans; [exact H |]. apply R_push. congruence.
      * apply IHe; exact Ha.
    + (* grow *)
      intros tm r s Ha. simpl.
      set (s0 := set_rpos r (Z.of_nat (offset (con s))) s).
      assert (Hs0 : R s s0) by apply R_rule.
      after_call (_parse_rule G f tm r s0) (IHb tm r s0 Ha); chain.
      eapply R_trans; [| apply IHg; exact Ha]. chain.
Qed.

Lemma kept_parse_expr (fuel : nat) (tm : entry) (e : _expr) (s : machine) :
  allowed skips tm -> R s (snd (parse_expr G fuel tm e s)).
Proof. intros Ha. apply (kept_all fuel); exact Ha. Qed.

Lemma kept_parse_rule (fuel : nat) (tm : entry) (r : rule) (s : machine) :
  allowed skips tm -> R s (snd (parse_rule G fuel tm r s)).
Proof. intros Ha. apply (kept_all fuel); exact Ha. Qed.

End Preservation.

(** ** Whitespace skipping and terminal mode *)

Lemma ws_calls_kept_in_term (G : grammar) :
  forall fuel, kept G (fun s s' => ws_calls s = ws_calls s') false fuel.
Proof.
  apply kept_all; intros; simpl; try reflexivity; try congruence.
Qed.

(** The counter does move in non-terminal mode: a sequence of two
    characters calls [parse_ws] once between them. *)
Example seq_non_term_skips :
  fst (parse_expr G_calc 10 NON_TERM (_seq (_char 97) (_char 98))
         (start [97; 32; 98]%Z)) = Ret true /\
  ws_calls (start [97; 32; 98]%Z) = 0 /\
  ws_calls (snd (parse_expr G_calc 10 NON_TERM (_seq (_char 97) (_char 98))
                   (start [97; 32; 98]%Z))) = 1 /\
  fst (parse_expr G_calc 10 TERM (_seq (_char 97) (_char 98))
         (start [97; 32; 98]%Z)) = Ret false.
Proof. repeat split. Qed.

(** ** The furthest error position *)

Lemma set_error_pos_cases (c : _context) :
  (m_it (m_error_pos c) < m_it (m_pos c) /\
   m_error_pos (set_error_pos c) = m_pos c) \/
  (m_it (m_pos c) <= m_it (m_error_pos c) /\ set_error_pos c = c).
Proof.
  unfold set_error_pos.
  destruct (m_it (m_error_pos c) <? m_it (m_pos c)) eqn:E.
  - left. apply Nat.ltb_lt in E. split; [exact E | reflexivity].
  - right. apply Nat.ltb_ge in E. split; [exact E | reflexivity].
Qed.

Lemma error_offset_kept (G : grammar) :
  forall fuel, kept G (fun s s' => error_offset s <= error_offset s') true fuel.
Proof.
  apply kept_all; unfold error_offset; intros; simpl; try lia.
  destruct (set_error_pos_cases (con s)) as [[Hlt Heq] | [_ Heq]];
    rewrite Heq; lia.
Qed.

(** ** The match log *)

Lemma resize_truncates (n : nat) (l : list _match) :
  n <= length l -> resize n l = firstn n l.
Proof.
  intros Hn. unfold resize.
  replace (n - length l) with 0 by lia. simpl. apply app_nil_r.
Qed.

Lemma Forall_firstn_of {A : Type} (P : A -> Prop) (n : nat) (l : list A) :
  Forall P l -> Forall P (firstn n l).
Proof.
  intros H. rewrite <- (firstn_skipn n l) in H.
  apply Forall_app in H. tauto.
Qed.

Lemma log_grows_kept (G : grammar) :
  forall fuel, kept G (log_grows G) true fuel.
Proof.
  apply kept_all; unfold log_grows, log; simpl.
  - intros s; split; auto.
  - intros s1 s2 s3 [L1 F1] [L2 F2]; split; [lia | auto].
  - intros s; split; auto.
  - intros s; split; auto.
  - intros s. destruct (set_error_pos_cases (con s)) as [[_ Heq] | [_ Heq]].
    + unfold set_error_pos in *.
      destruct (m_it (m_error_pos (con s)) <? m_it (m_pos (con s)));
        simpl; split; auto.
    + rewrite Heq; split; auto.
  - intros s0 s1 [L F]. rewrite resize_truncates by exact L.
    rewrite length_firstn. split; [lia |].
    intros H0. apply Forall_firstn_of. auto.
  - intros s r b Hr. rewrite length_app; simpl. split; [lia |].
    intros H. apply Forall_app. split; [exact H |].
    constructor; [exact Hr | constructor].
  - intros s r v; split; auto.
  - intros s _; split; auto.
Qed.

Lemma do_parse_procs_registered (G : grammar) (ms : list _match) :
  Forall (registered G) ms -> do_parse_procs G ms <> None.
Proof.
  induction 1 as [| m ms Hm _ IH]; simpl; [discriminate |].
  unfold registered in Hm.
  destruct (get_parse_proc G (m_rule m)); [| congruence].
  destruct (do_parse_procs G ms); [discriminate | congruence].
Qed.

(** ** Re-entry of a rule at its recorded position *)

Lemma rules_set_rpos (r : rule) (p : Z) (s : machine) :
  rules (set_rpos r p s) r = mk_rule_state p (rs_mode (rules s r)).
Proof. simpl. rewrite Nat.eqb_refl. reflexivity. Qed.

Lemma set_rule_state_same (r : rule) (s : machine) (p : Z) (r' : rule) :
  rules (set_rule_state r (rules s r) (set_rpos r p s)) r' = rules s r'.
Proof.
  simpl. destruct (r' =? r) eqn:E; [| reflexivity].
  apply Nat.eqb_eq in E. subst r'. reflexivity.
Qed.

Lemma parse_rule_reject_lr (G : grammar) (f : nat) (tm : entry) (r : rule)
  (s : machine) :
  Z.of_nat (offset (con s)) = rs_pos (rules s r) ->
  rs_mode (rules s r) = _REJECT ->
  parse_rule G (S f) tm r s
  = (Ret false,
     set_rule_state r (rules s r) (set_rpos r (Z.of_nat (offset (con s))) s)).
Proof.
  intros Hp Hm. simpl. rewrite Nat.eqb_refl. simpl.
  rewrite Hm, Hp, Z.eqb_refl. reflexivity.
Qed.

Lemma parse_rule_accept_lr (G : grammar) (f : nat) (tm : entry) (r : rule)
  (s : machine) :
  Z.of_nat (offset (con s)) = rs_pos (rules s r) ->
  rs_mode (rules s r) = _ACCEPT ->
  parse_rule G (S f) tm r s
  = (Ret true,
     set_rule_state r (rules s r) (set_rpos r (Z.of_nat (offset (con s))) s)).
Proof.
  intros Hp Hm. simpl. rewrite Nat.eqb_refl. simpl.
  rewrite Hm, Hp, Z.eqb_refl. reflexivity.
Qed.

(** C4. A rule entered in REJECT mode at its recorded position returns
    false, and one entered in ACCEPT mode at its recorded position
    returns true; in both cases the body is not evaluated (one unit of
    fuel is enough), the context is left as it was (no input is consumed,
    nothing is logged) and no rule state changes. *)
Theorem left_recursive_reentry (G : grammar) (f : nat) (tm : entry)
  (r : rule) (s : machine) :
  Z.of_nat (offset (con s)) = rs_pos (rules s r) ->
  (rs_mode (rules s r) = _REJECT ->
   fst (parse_rule G (S f) tm r s) = Ret false) /\
  (rs_mode (rules s r) = _ACCEPT ->
   fst (parse_rule G (S f) tm r s) = Ret true) /\
  (rs_mode (rules s r) <> _PARSE ->
   con (snd (parse_rule G (S f) tm r s)) = con s /\
   ws_calls (snd (parse_rule G (S f) tm r s)) = ws_calls s /\
   forall r', rules (snd (parse_rule G (S f) tm r s)) r' = rules s r').
Proof.
  intros Hp. split; [| split].
  - intros Hm. rewrite parse_rule_reject_lr by assumption. reflexivity.
  - intros Hm. rewrite parse_rule_accept_lr by assumption. reflexivity.
  - intros Hm. destruct (rs_mode (rules s r)) eqn:E; [congruence | |].
    + rewrite parse_rule_reject_lr by assumption.
      split; [reflexivity | split; [reflexivity |]].
      intros r'. apply set_rule_state_same.
    + rewrite parse_rule_accept_lr by assumption.
      split; [reflexivity | split; [reflexivity |]].
      intros r'. apply set_rule_state_same.
Qed.

(** ** Zero-or-more in non-terminal mode *)

(** C10. [_loop0::parse_non_term] calls [parse_ws] first and takes its
    snapshot after it: when the first attempt of the operand fails, the
    loop returns true and the position is the one the whitespace skip
    left, not the one the loop was entered at; the log is cut back to
    its length after the skip. *)
Theorem loop0_keeps_skipped_whitespace (G : grammar) (f : nat) (e : _expr)
  (s s1 s2 : machine) (okw : bool) :
  skip_ws (parse_rule G f) NON_TERM s = (Ret okw, s1) ->
  parse_expr G f NON_TERM e s1 = (Ret false, s2) ->
  parse_expr G (S f) NON_TERM (_loop0 e) s
  = (Ret true, with_con (restore (snapshot (con s1)) (con s2)) s2) /\
  m_pos (con (snd (parse_expr G (S f) NON_TERM (_loop0 e) s)))
  = m_pos (con s1) /\
  length (log (snd (parse_expr G (S f) NON_TERM (_loop0 e) s)))
  = length (log s1).
Proof.
  intros Hws He.
  assert (E : parse_expr G (S f) NON_TERM (_loop0 e) s
              = (Ret true, with_con (restore (snapshot (con s1)) (con s2)) s2)).
  { simpl. unfold skip_ws in Hws. rewrite Hws. simpl. rewrite He.
    reflexivity. }
  rewrite E. split; [reflexivity | split; [reflexivity |]].
  unfold log; simpl. unfold resize.
  rewrite length_app, length_firstn, repeat_length. lia.
Qed.

(** ** The driver *)

Lemma leftover_error_type (c : _context) :
  m_type (leftover_error c)
  = if m_it (m_error_pos c) <? length (m_input c)
    then ERROR_SYNTAX_ERROR else ERROR_INVALID_EOF.
Proof.
  unfold leftover_error.
  destruct (m_it (m_error_pos c) <? length (m_input c)); reflexivity.
Qed.

Lemma input_kept (G : grammar) :
  forall fuel, kept G (fun s s' => m_input (con s') = m_input (con s)) true fuel.
Proof.
  apply kept_all; simpl; try reflexivity; try congruence.
  intros s. unfold set_error_pos.
  destruct (m_it (m_error_pos (con s)) <? m_it (m_pos (con s))); reflexivity.
Qed.

Lemma input_kept_parse_rule (G : grammar) (fuel : nat) (tm : entry)
  (r : rule) (s : machine) :
  m_input (con (snd (parse_rule G fuel tm r s))) = m_input (con s).
Proof.
  apply (input_kept G fuel). destruct tm; simpl; auto.
Qed.

(** ** Strings *)

Lemma matched_le (cs rest : list Z) : matched cs rest <= length cs.
Proof.
  revert rest. induction cs as [| ch cs IH]; intros [| x rest]; simpl; try lia.
  destruct (x =? ch)%Z; [specialize (IH rest) |]; lia.
Qed.

Lemma skipn_nth_cons {A : Type} (d : A) (n : nat) (l : list A) :
  n < length l -> skipn n l = nth n l d :: skipn (S n) l.
Proof.
  revert l. induction n as [| n IH]; intros [| x l] Hn; simpl in *; try lia.
  - reflexivity.
  - apply IH. lia.
Qed.

Lemma set_error_pos_keeps (c : _context) :
  m_pos (set_error_pos c) = m_pos c /\
  m_matches (set_error_pos c) = m_matches c /\
  m_input (set_error_pos c) = m_input c.
Proof.
  unfold set_error_pos.
  destruct (m_it (m_error_pos c) <? m_it (m_pos c)); simpl; auto.
Qed.

Lemma _string_parse_matched (cs : list Z) (c : _context) :
  offset c <= length (m_input c) ->
  fst (_string_parse cs c)
  = (matched cs (skipn (offset c) (m_input c)) =? length cs) /\
  m_pos (snd (_string_parse cs c))
  = advance (matched cs (skipn (offset c) (m_input c))) (m_pos c) /\
  m_matches (snd (_string_parse cs c)) = m_matches c.
Proof.
  revert c. induction cs as [| ch cs IH]; intros c Hc.
  - simpl. destruct (skipn (offset c) (m_input c)); simpl;
      (split; [reflexivity | split; [| reflexivity]]);
      destruct (m_pos c); reflexivity.
  - simpl. unfold end_. destruct (offset c =? length (m_input c)) eqn:E.
    + apply Nat.eqb_eq in E. rewrite E, skipn_all. simpl.
      destruct (set_error_pos_keeps c) as (Hp & Hm & _).
      rewrite Hp, Hm. split; [reflexivity | split; [| reflexivity]].
      destruct (m_pos c); reflexivity.
    + apply Nat.eqb_neq in E.
      rewrite (skipn_nth_cons 0%Z (offset c) (m_input c)) by lia.
      fold (symbol c).
      destruct (symbol c =? ch)%Z eqn:Es; simpl.
      * assert (Hn : offset (next_col c) <= length (m_input (next_col c)))
          by (unfold offset in *; simpl; lia).
        destruct (IH (next_col c) Hn) as (H1 & H2 & H3).
        change (m_input (next_col c)) with (m_input c) in H1, H2.
        change (offset (next_col c)) with (S (offset c)) in H1, H2.
        rewrite H1, H2, H3.
        split; [reflexivity | split; [| reflexivity]].
        unfold advance; simpl. f_equal; lia.
      * destruct (set_error_pos_keeps c) as (Hp & Hm & _).
        rewrite Hp, Hm. split; [reflexivity | split; [| reflexivity]].
        destruct (m_pos c); reflexivity.
Qed.

(** C3, as the code has it. [_string::_parse] returns true exactly
    when every character of the string matches, and the position has
    then advanced over the whole string; when the match fails partway it
    returns false and leaves the position advanced over the characters
    that did match. It never touches the match log. *)
Theorem string_advances_over_matched_prefix (G : grammar) (f : nat)
  (tm : entry) (cs : list Z) (s : machine) :
  offset (con s) <= length (m_input (con s)) ->
  let k := matched cs (skipn (offset (con s)) (m_input (con s))) in
  let r := parse_expr G (S f) tm (_string cs) s in
  fst r = Ret (k =? length cs) /\
  k <= length cs /\
  m_pos (con (snd r)) = advance k (m_pos (con s)) /\
  log (snd r) = log s.
Proof.
  intros Hs k r. subst r. simpl. unfold lift.
  destruct (_string_parse_matched cs (con s) Hs) as (H1 & H2 & H3).
  fold k in H1, H2.
  destruct (_string_parse cs (con s)) as [ok c']. simpl in *.
  subst ok. split; [reflexivity |]. split; [apply matched_le |].
  split; assumption.
Qed.

(** ** Failure and the snapshot *)

Lemma length_resize (n : nat) (l : list _match) : length (resize n l) = n.
Proof.
  unfold resize. rewrite length_app, length_firstn, repeat_length. lia.
Qed.

Lemma restored_same_snapshot (s s1 : machine) :
  same_snapshot s (with_con (restore (snapshot (con s)) (con s1)) s1).
Proof.
  unfold same_snapshot, log; simpl. split; [reflexivity | apply length_resize].
Qed.

Lemma loop_rest_not_false (G : grammar) (fuel : nat) (tm : entry) (e : _expr)
  (s s' : machine) :
  loop_rest G fuel tm e s <> (Ret false, s').
Proof.
  revert s. induction fuel as [| f IH]; intros s; simpl; [discriminate |].
  destruct (skip_ws (parse_rule G f) tm s) as [[okw | rw |] s0]; simpl;
    try discriminate.
  destruct (parse_expr G f tm e s0) as [[[|] | r1 |] s1]; simpl;
    try discriminate.
  apply IH.
Qed.

Lemma matcher_failure_same_snapshot (p : _context -> bool * _context)
  (s s' : machine) :
  (forall c, p c = (false, set_error_pos c) \/ fst (p c) = true \/
             p c = (false, c)) ->
  lift p s = (Ret false, s') -> same_snapshot s s'.
Proof.
  intros Hp. unfold lift.
  destruct (Hp (con s)) as [E | [E | E]].
  - rewrite E. intros H. injection H as <-.
    unfold same_snapshot, log; simpl.
    destruct (set_error_pos_keeps (con s)) as (H1 & H2 & _).
    rewrite H1, H2. auto.
  - destruct (p (con s)) as [ok c]. simpl in E. subst ok. discriminate.
  - rewrite E. intros H. injection H as <-.
    unfold same_snapshot, log; simpl. auto.
Qed.

Lemma failure_same_snapshot (G : grammar) (e : _expr) :
  forall fuel tm s s',
    restores_on_failure tm e = true ->
    parse_expr G fuel tm e s = (Ret false, s') ->
    same_snapshot s s'.
Proof.
  induction e as [c | cs | flags | e IH | e IH | e IH | e IH | e IH | e IH
                 | e IH | l IHl r IHr | l IHl r IHr | r | | ];
    intros [| f] tm s s' Hr; simpl; try discriminate.
  - apply matcher_failure_same_snapshot. intros c0. unfold _char_parse.
    destruct (negb (end_ c0) && (symbol c0 =? c)%Z); auto.
  - apply matcher_failure_same_snapshot. intros c0.
    destruct cs as [| ch [| ch' cs]]; simpl in *; try discriminate; auto.
    destruct (end_ c0); auto.
    destruct (negb (symbol c0 =? ch)%Z); auto.
  - apply matcher_failure_same_snapshot. intros c0. unfold _set_parse.
    match goal with |- context [if ?b then _ else _] => destruct b end; auto.
  - apply IH. exact Hr.
  - (* _loop0 *)
    destruct (skip_ws (parse_rule G f) tm s) as [[okw | rw |] s0]; simpl;
      try discriminate.
    destruct (parse_expr G f tm e s0) as [[[|] | r1 |] s1]; simpl;
      try discriminate.
    intros H. exfalso. exact (loop_rest_not_false _ _ _ _ _ _ H).
  - (* _loop1 *)
    destruct tm; simpl in *; try discriminate.
    destruct (parse_expr G f TERM e s) as [[[|] | r1 |] s1] eqn:E; simpl;
      try discriminate.
    + intros H. exfalso. exact (loop_rest_not_false _ _ _ _ _ _ H).
    + intros H. injection H as <-. apply (IH f TERM); assumption.
  - (* _optional *)
    destruct (parse_expr G f tm e s) as [[[|] | r1 |] s1]; simpl; discriminate.
  - (* _and *)
    destruct (parse_expr G f tm e s) as [[ok | r1 |] s1]; simpl;
      try discriminate.
    intros H. injection H as _ <-. apply restored_same_snapshot.
  - (* _not *)
    destruct (parse_expr G f tm e s) as [[ok | r1 |] s1]; simpl;
      try discriminate.
    intros H. injection H as _ <-. apply restored_same_snapshot.
  - (* _nl *)
    destruct (parse_expr G f tm e s) as [[[|] | r1 |] s1] eqn:E; simpl;
      try discriminate.
    intros H. injection H as <-. apply (IH f tm); assumption.
  - (* _choice *)
    destruct (parse_expr G f tm l s) as [[[|] | r1 |] s1] eqn:E; simpl;
      try discriminate.
    intros H. apply (IHr f tm _ _ Hr) in H.
    destruct (restored_same_snapshot s s1) as [P1 L1].
    destruct H as [P2 L2]. split; congruence.
  - (* _eof *)
    apply matcher_failure_same_snapshot. intros c0. unfold _eof_parse.
    destruct (end_ c0); auto.
  - (* _any *)
    apply matcher_failure_same_snapshot. intros c0. unfold _any_parse.
    destruct (negb (end_ c0)); auto.
Qed.

(** The lookaheads go back to their snapshot whatever the operand
    returned. *)
Lemma lookahead_same_snapshot (G : grammar) (f : nat) (tm : entry)
  (e : _expr) (s s' : machine) (ok : bool) :
  parse_expr G (S f) tm (_and e) s = (Ret ok, s') \/
  parse_expr G (S f) tm (_not e) s = (Ret ok, s') ->
  same_snapshot s s'.
Proof.
  simpl. intros [H | H];
    destruct (parse_expr G f tm e s) as [[ok1 | r1 |] s1]; simpl in H;
    try discriminate; injection H as _ <-; apply restored_same_snapshot.
Qed.

(** C2, as the code has it. A false return leaves the position and
    the length of the match log as they were on entry for every
    expression of [restores_on_failure]; [_and] and [_not] do so
    whatever they return. The other operators hand a failure up with
    the context as the failing operand left it, and it is the
    enclosing [_choice], [_optional], loop or lookahead that goes back
    to its own snapshot. *)
Theorem failure_restores_where_snapshotted (G : grammar) (fuel : nat)
  (tm : entry) (e : _expr) (s s' : machine) :
  restores_on_failure tm e = true ->
  parse_expr G fuel tm e s = (Ret false, s') ->
  m_pos (con s') = m_pos (con s) /\
  length (m_matches (con s')) = length (m_matches (con s)).
Proof.
  intros Hr H. exact (failure_same_snapshot G e fuel tm s s' Hr H).
Qed.

(** ** One step of each function *)

Lemma parse_expr_ref (G : grammar) (f : nat) (tm : entry) (r : rule)
  (s : machine) :
  parse_expr G (S f) tm (_ref r) s = parse_rule G f tm r s.
Proof. reflexivity. Qed.

Lemma parse_expr_choice (G : grammar) (f : nat) (tm : entry) (l r : _expr)
  (s : machine) :
  parse_expr G (S f) tm (_choice l r) s
  = (call ok, s1 <- parse_expr G f tm l s;;
     if ok then (Ret true, s1)
     else parse_expr G f tm r
            (with_con (restore (snapshot (con s)) (con s1)) s1)).
Proof. reflexivity. Qed.

Lemma _parse_rule_no_proc (G : grammar) (f : nat) (tm : entry) (r : rule)
  (s : machine) :
  get_parse_proc G r = None ->
  _parse_rule G (S f) tm r s = parse_expr G f tm (get_expr G r) s.
Proof. intros H. simpl. rewrite H. reflexivity. Qed.

Lemma grow_S (G : grammar) (f : nat) (tm : entry) (r : rule) (s : machine) :
  grow G (S f) tm r s
  = (call ok, s1 <-
       _parse_rule G f tm r (set_rpos r (Z.of_nat (offset (con s))) s);;
     if ok then grow G f tm r s1
     else (Ret true, with_con (restore (snapshot (con s)) (con s1)) s1)).
Proof. reflexivity. Qed.

(** The grow loop leaves on the first iteration that fails, with the
    context of the snapshot taken before that iteration. *)
Lemma grow_exits_on_failure (G : grammar) (f : nat) (tm : entry) (r : rule)
  (s s1 : machine) :
  _parse_rule G f tm r (set_rpos r (Z.of_nat (offset (con s))) s)
  = (Ret false, s1) ->
  grow G (S f) tm r s
  = (Ret true, with_con (restore (snapshot (con s)) (con s1)) s1).
Proof. intros H. rewrite grow_S, H. reflexivity. Qed.

(** An iteration that succeeds is followed by another one, whether it
    moved the position or not. *)
Lemma grow_goes_on_after_success (G : grammar) (f : nat) (tm : entry)
  (r : rule) (s s1 : machine) :
  _parse_rule G f tm r (set_rpos r (Z.of_nat (offset (con s))) s)
  = (Ret true, s1) ->
  grow G (S f) tm r s = grow G f tm r s1.
Proof. intros H. rewrite grow_S, H. reflexivity. Qed.

(** PARSE mode at the recorded position: the seed attempt in REJECT
    mode, then the grow loop in ACCEPT mode and the non-local exit. *)
Lemma parse_rule_parse_lr (G : grammar) (f : nat) (tm : entry) (r : rule)
  (s : machine) :
  rs_mode (rules s r) = _PARSE ->
  Z.of_nat (offset (con s)) = rs_pos (rules s r) ->
  parse_rule G (S f) tm r s
  = match _parse_rule G f tm r
            (set_mode r _REJECT (set_rpos r (Z.of_nat (offset (con s))) s)) with
    | (Ret true, s1) =>
        match grow G f tm r (set_mode r _ACCEPT s1) with
        | (Ret _, s2) => (Throw r, set_rule_state r (rules s r) s2)
        | other => other
        end
    | (Ret false, s1) => (Ret false, set_rule_state r (rules s r) s1)
    | other => other
    end.
Proof.
  intros Hm Hp. simpl. rewrite Nat.eqb_refl. simpl.
  rewrite Hm, Hp, Z.eqb_refl. reflexivity.
Qed.

(** PARSE mode at a new position: the body, inside the handler of
    [_lr_ok]. *)
Lemma parse_rule_parse_new (G : grammar) (f : nat) (tm : entry) (r : rule)
  (s : machine) :
  rs_mode (rules s r) = _PARSE ->
  Z.of_nat (offset (con s)) <> rs_pos (rules s r) ->
  parse_rule G (S f) tm r s
  = match _parse_rule G f tm r (set_rpos r (Z.of_nat (offset (con s))) s) with
    | (Ret ok, s1) => (Ret ok, set_rule_state r (rules s r) s1)
    | (Throw r', s1) =>
        if r' =? r then (Ret true, set_rule_state r (rules s r) s1)
        else (Throw r', set_rule_state r (rules s r) s1)
    | other => other
    end.
Proof.
  intros Hm Hp. simpl. rewrite Nat.eqb_refl. simpl.
  apply Z.eqb_neq in Hp. rewrite Hm, Hp. reflexivity.
Qed.

(** ** A grow loop that never ends *)

(** In ACCEPT mode an iteration of the loop succeeds through the
    re-entry of the rule alone, with nothing consumed. *)
Lemma nullable_lr_iteration (f : nat) (s : machine) :
  rs_mode (rules s 1) = _ACCEPT ->
  exists s',
    _parse_rule G_nullable_lr (S (S (S (S f)))) NON_TERM 1
      (set_rpos 1 (Z.of_nat (offset (con s))) s) = (Ret true, s') /\
    con s' = con s /\
    rs_mode (rules s' 1) = _ACCEPT.
Proof.
  intros Hm.
  set (s0 := set_rpos 1 (Z.of_nat (offset (con s))) s).
  assert (Hp : Z.of_nat (offset (con s0)) = rs_pos (rules s0 1))
    by reflexivity.
  assert (Hm0 : rs_mode (rules s0 1) = _ACCEPT) by exact Hm.
  rewrite _parse_rule_no_proc by reflexivity.
  change (get_expr G_nullable_lr 1) with (_choice (_ref 1) (_char 97)).
  rewrite parse_expr_choice, parse_expr_ref.
  rewrite (parse_rule_accept_lr G_nullable_lr f NON_TERM 1 s0 Hp Hm0).
  rewrite bind_ret. eexists. split; [reflexivity |].
  split; [reflexivity | exact Hm].
Qed.

Lemma nullable_lr_grow_diverges : forall (f : nat) (s : machine),
  rs_mode (rules s 1) = _ACCEPT ->
  fst (grow G_nullable_lr f NON_TERM 1 s) = OutOfFuel.
Proof.
  induction f as [f IH] using lt_wf_ind. intros s Hm.
  destruct f as [| [| [| [| [| f]]]]]; try reflexivity.
  destruct (nullable_lr_iteration f s Hm) as (s' & E & _ & Hm').
  rewrite grow_S, E, bind_ret. apply IH; [lia | exact Hm'].
Qed.

(** The seed attempt, in REJECT mode at the recorded position, takes
    the second alternative. *)
Lemma nullable_lr_seed (f : nat) (s : machine) :
  rs_mode (rules s 1) = _REJECT ->
  Z.of_nat (offset (con s)) = rs_pos (rules s 1) ->
  end_ (con s) = false ->
  symbol (con s) = 97%Z ->
  fst (_parse_rule G_nullable_lr f NON_TERM 1 s) = OutOfFuel \/
  exists s', _parse_rule G_nullable_lr f NON_TERM 1 s = (Ret true, s').
Proof.
  intros Hm Hp He Hs.
  destruct f as [| [| [| [| f]]]]; try (left; reflexivity).
  right.
  rewrite _parse_rule_no_proc by reflexivity.
  change (get_expr G_nullable_lr 1) with (_choice (_ref 1) (_char 97)).
  rewrite parse_expr_choice, parse_expr_ref.
  rewrite (parse_rule_reject_lr G_nullable_lr f NON_TERM 1 s Hp Hm).
  rewrite bind_ret. simpl. unfold lift, _char_parse. simpl.
  change (end_ _) with (end_ (con s)). change (symbol _) with (symbol (con s)).
  rewrite He, Hs. simpl. eexists. reflexivity.
Qed.

Lemma nullable_lr_at_recorded_pos (f : nat) (s : machine) :
  rs_mode (rules s 1) = _PARSE ->
  Z.of_nat (offset (con s)) = rs_pos (rules s 1) ->
  end_ (con s) = false ->
  symbol (con s) = 97%Z ->
  fst (parse_rule G_nullable_lr f NON_TERM 1 s) = OutOfFuel.
Proof.
  intros Hm Hp He Hs. destruct f as [| f]; [reflexivity |].
  rewrite parse_rule_parse_lr by assumption.
  destruct (nullable_lr_seed f
              (set_mode 1 _REJECT (set_rpos 1 (Z.of_nat (offset (con s))) s)))
    as [E | [s' E]]; try reflexivity; try assumption.
  - destruct (_parse_rule G_nullable_lr f NON_TERM 1 _) as [o s1].
    simpl in E. subst o. reflexivity.
  - rewrite E.
    pose proof (nullable_lr_grow_diverges f (set_mode 1 _ACCEPT s')
                  eq_refl) as D.
    destruct (grow G_nullable_lr f NON_TERM 1 (set_mode 1 _ACCEPT s'))
      as [o s2].
    simpl in D. subst o. reflexivity.
Qed.

Lemma nullable_lr_diverges (f : nat) (s : machine) :
  rs_mode (rules s 1) = _PARSE ->
  end_ (con s) = false ->
  symbol (con s) = 97%Z ->
  fst (parse_rule G_nullable_lr f NON_TERM 1 s) = OutOfFuel.
Proof.
  intros Hm He Hs.
  destruct (Z.eq_dec (Z.of_nat (offset (con s))) (rs_pos (rules s 1)))
    as [Hp | Hp].
  - apply nullable_lr_at_recorded_pos; assumption.
  - destruct f as [| f]; [reflexivity |].
    rewrite parse_rule_parse_new by assumption.
    destruct f as [| f]; [reflexivity |].
    rewrite _parse_rule_no_proc by reflexivity.
    change (get_expr G_nullable_lr 1) with (_choice (_ref 1) (_char 97)).
    destruct f as [| f]; [reflexivity |].
    rewrite parse_expr_choice.
    destruct f as [| f]; [reflexivity |].
    rewrite parse_expr_ref.
    pose proof (nullable_lr_at_recorded_pos f
                  (set_rpos 1 (Z.of_nat (offset (con s))) s)) as D.
    rewrite rules_set_rpos in D. simpl rs_mode in D. simpl rs_pos in D.
    specialize (D Hm eq_refl He Hs).
    destruct (parse_rule G_nullable_lr f NON_TERM 1
                (set_rpos 1 (Z.of_nat (offset (con s))) s)) as [o s1].
    simpl in D. subst o. reflexivity.
Qed.

Lemma nullable_lr_leading_ws (fuel : nat) (rest : list Z) :
  let r := parse_rule G_nullable_lr fuel TERM 0
             (mk_machine (context_init (97%Z :: rest) 0) fresh_rules 0) in
  fst r = OutOfFuel \/
  (fst r = Ret true /\ rs_mode (rules (snd r) 1) = _PARSE /\
   end_ (con (snd r)) = false /\ symbol (con (snd r)) = 97%Z).
Proof.
  destruct fuel as [| [| [| [| f]]]]; try (left; reflexivity).
  right. repeat split.
Qed.

(** C1, at the input where the code departs from it. For the rule
    [A = A | 'a'] and any input that starts with [a], [parse] returns
    with no amount of fuel: after the seed the rule is in ACCEPT mode,
    every iteration of the grow loop succeeds through the re-entry of
    [A] without consuming anything, and the loop only leaves on a
    failed iteration. *)
Theorem grow_loop_without_progress_never_ends (fuel : nat) (rest : list Z)
  (el : list error) :
  parse G_nullable_lr fuel (97%Z :: rest) 1 0 el fresh_rules = Unfinished.
Proof.
  unfold parse.
  destruct (nullable_lr_leading_ws fuel rest) as [E | (E & Hm & He & Hs)];
    destruct (parse_rule G_nullable_lr fuel TERM 0 _) as [o s1];
    simpl in *; subst o; [reflexivity |].
  pose proof (nullable_lr_diverges fuel s1 Hm He Hs) as D.
  destruct (parse_rule G_nullable_lr fuel NON_TERM 1 s1) as [o s2].
  simpl in D. subst o. reflexivity.
Qed.

(** ** Fuel *)

Section Fuel.

Variable G : grammar.

Ltac use_stable K Hle :=
  let IHe := fresh in let IHl := fresh in let IHr := fresh in
  let IHb := fresh in let IHg := fresh in
  pose proof K as (IHe & IHl & IHr & IHb & IHg);
  match goal with
  | Hs : settled ?R |- _ = ?R =>
      match R with
      | context [?X G ?f ?a ?b ?c] =>
          let Hx := fresh "Hx" in
          assert (Hx : settled (X G f a b c))
            by (let Hc := fresh in
                intro Hc; apply Hs;
                destruct (X G f a b c) as [? ?];
                simpl in Hc; subst; reflexivity);
          first [ rewrite (IHe _ a b c Hle Hx)
                | rewrite (IHl _ a b c Hle Hx)
                | rewrite (IHr _ a b c Hle Hx)
                | rewrite (IHb _ a b c Hle Hx)
                | rewrite (IHg _ a b c Hle Hx) ];
          clear Hx;
          destruct (X G f a b c) as [[[|] | ? | ] ?];
          simpl in Hs |- *;
          try reflexivity;
          try (exfalso; apply Hs; reflexivity)
      end
  end;
  clear IHe IHl IHr IHb IHg.

Lemma stable_all : forall f, stable G f.
Proof.
  induction f as [| f K].
  - repeat split; intros ? ? ? ? ? Hs; exfalso; apply Hs; reflexivity.
  - repeat split; intros [| f'] tm x s Hle Hs; try lia;
      apply Nat.succ_le_mono in Hle.
    + destruct x; destruct tm; simpl in Hs |- *; try reflexivity;
        repeat use_stable K Hle.
    + destruct tm; simpl in Hs |- *; repeat use_stable K Hle.
    + simpl in Hs |- *. rewrite Nat.eqb_refl in Hs |- *. simpl in Hs |- *.
      destruct (rs_mode (rules s x));
        destruct (Z.of_nat (offset (con s)) =? rs_pos (rules s x))%Z;
        simpl in Hs |- *; try reflexivity; repeat use_stable K Hle.
    + simpl in Hs |- *. destruct (get_parse_proc G x);
        repeat use_stable K Hle.
    + simpl in Hs |- *. repeat use_stable K Hle.
Qed.

Lemma parse_rule_enough_fuel (f f' : nat) (tm : entry) (r : rule)
  (s : machine) :
  f <= f' -> settled (parse_rule G f tm r s) ->
  parse_rule G f' tm r s = parse_rule G f tm r s.
Proof. intros Hle Hs. apply (stable_all f); assumption. Qed.

Lemma parse_expr_enough_fuel (f f' : nat) (tm : entry) (e : _expr)
  (s : machine) :
  f <= f' -> settled (parse_expr G f tm e s) ->
  parse_expr G f' tm e s = parse_expr G f tm e s.
Proof. intros Hle Hs. apply (stable_all f); assumption. Qed.

Lemma parse_enough_fuel (f f' : nat) (i : list Z) (g ws : rule)
  (el : list error) (rs : rule -> rule_state) :
  f <= f' -> parse G f i g ws el rs <> Unfinished ->
  parse G f' i g ws el rs = parse G f i g ws el rs.
Proof.
  intros Hle. unfold parse.
  set (s0 := mk_machine (context_init i ws) rs 0).
  destruct (parse_rule G f TERM ws s0) as [o1 s1] eqn:E1.
  assert (H1 : o1 <> OutOfFuel -> parse_rule G f' TERM ws s0 = (o1, s1)).
  { intros H. rewrite <- E1. apply parse_rule_enough_fuel; [exact Hle |].
    unfold settled. rewrite E1. exact H. }
  destruct o1 as [ok1 | r1 |]; try congruence;
    rewrite H1 by discriminate; [| reflexivity].
  destruct (parse_rule G f NON_TERM g s1) as [o2 s2] eqn:E2.
  assert (H2 : o2 <> OutOfFuel -> parse_rule G f' NON_TERM g s1 = (o2, s2)).
  { intros H. rewrite <- E2. apply parse_rule_enough_fuel; [exact Hle |].
    unfold settled. rewrite E2. exact H. }
  destruct o2 as [[|] | r2 |]; try congruence;
    rewrite H2 by discriminate; try reflexivity.
  destruct (parse_rule G f TERM ws s2) as [o3 s3] eqn:E3.
  assert (H3 : o3 <> OutOfFuel -> parse_rule G f' TERM ws s2 = (o3, s3)).
  { intros H. rewrite <- E3. apply parse_rule_enough_fuel; [exact Hle |].
    unfold settled. rewrite E3. exact H. }
  destruct o3 as [ok3 | r3 |]; try congruence;
    rewrite H3 by discriminate; reflexivity.
Qed.

End Fuel.

(** ** Rule state across the exits of a rule *)

(** A return restores the state the rule had on entry. *)
Lemma parse_rule_return_restores (G : grammar) (fuel : nat) (tm : entry)
  (r : rule) (s s' : machine) (ok : bool) :
  parse_rule G fuel tm r s = (Ret ok, s') -> rules s' r = rules s r.
Proof.
  assert (Hset : forall (o : outcome) (s1 : machine),
             (o, set_rule_state r (rules s r) s1) = (Ret ok, s') ->
             rules s' r = rules s r).
  { intros o s1 H. injection H as _ <-. simpl.
    rewrite Nat.eqb_refl. reflexivity. }
  destruct fuel as [| f]; simpl; [discriminate |].
  rewrite Nat.eqb_refl. simpl.
  destruct (rs_mode (rules s r));
    destruct (Z.of_nat (offset (con s)) =? rs_pos (rules s r))%Z;
    try apply Hset.
  - destruct (_parse_rule G f tm r _) as [[[|] | r1 |] s1]; try discriminate;
      try apply Hset.
    destruct (grow G f tm r _) as [[ok2 | r2 |] s2]; discriminate.
  - destruct (_parse_rule G f tm r _) as [[ok1 | r1 |] s1]; try discriminate;
      try apply Hset.
    destruct (r1 =? r); [apply Hset | discriminate].
  - destruct (_parse_rule G f tm r _) as [[ok1 | r1 |] s1]; simpl;
      try discriminate; apply Hset.
  - destruct (_parse_rule G f tm r _) as [[ok1 | r1 |] s1]; simpl;
      try discriminate; apply Hset.
Qed.

(** In PARSE mode at a new position, the handler of [_lr_ok] restores
    the state before it lets the exception of another rule go on. *)
Lemma parse_rule_rethrow_restores (G : grammar) (fuel : nat) (tm : entry)
  (r r' : rule) (s s' : machine) :
  rs_mode (rules s r) = _PARSE ->
  Z.of_nat (offset (con s)) <> rs_pos (rules s r) ->
  parse_rule G fuel tm r s = (Throw r', s') -> rules s' r = rules s r.
Proof.
  intros Hm Hp. destruct fuel as [| f]; [discriminate |].
  rewrite parse_rule_parse_new by assumption.
  destruct (_parse_rule G f tm r _) as [[ok1 | r1 |] s1]; try discriminate.
  destruct (r1 =? r); [discriminate |].
  intros H. injection H as _ <-. simpl. rewrite Nat.eqb_refl. reflexivity.
Qed.

(** The machine of the inner call is the one the seed attempt of [A]
    reaches on [ac]: [A] is in REJECT mode at offset 0, the first
    alternative fails on the re-entry of [A], the second matches [a]
    and skips whitespace. *)
Example inner_call_state_arises :
  let s0 := set_mode 1 _REJECT (set_rpos 1 0 (start [97; 99]%Z)) in
  let r1 := parse_expr G_nested_lr 5 NON_TERM (_seq (_ref 1) (_char 98)) s0 in
  let s1 := with_con (restore (snapshot (con s0)) (con (snd r1))) (snd r1) in
  let r2 := parse_expr G_nested_lr 5 NON_TERM (_char 97) s1 in
  let r3 := skip_ws (parse_rule G_nested_lr 5) NON_TERM (snd r2) in
  fst r1 = Ret false /\ fst r2 = Ret true /\ fst r3 = Ret true /\
  con (snd r3) = con s_inner_call /\
  rules (snd r3) 1 = rules s_inner_call 1 /\
  ws_calls (snd r3) = ws_calls s_inner_call.
Proof. repeat split. Qed.

Example nested_lr_parses :
  forall fuel, 26 <= fuel ->
  parse G_nested_lr fuel [97; 99]%Z 1 0 [] fresh_rules
  = Returns true [] (Some []).
Proof.
  intros fuel Hle.
  rewrite (parse_enough_fuel G_nested_lr 26 fuel);
    [reflexivity | exact Hle | vm_compute; discriminate].
Qed.

(** C5, at the input where the code departs from it. Entered in
    REJECT mode away from its recorded position, [A] switches to PARSE
    and evaluates its body with no handler around it; the body ends a
    left recursion of [A] at offset 1 and [_lr_ok] unwinds through the
    call, which leaves with the state (1, PARSE) where it was entered
    with (0, REJECT). *)
Theorem unwinding_skips_state_restore (fuel : nat) :
  let r := parse_rule G_nested_lr (14 + fuel) NON_TERM 1 s_inner_call in
  rules s_inner_call 1 = mk_rule_state 0 _REJECT /\
  fst r = Throw 1 /\
  rules (snd r) 1 = mk_rule_state 1 _PARSE.
Proof.
  intros r. subst r.
  rewrite (parse_rule_enough_fuel G_nested_lr 14 (14 + fuel));
    [vm_compute; repeat split | lia | vm_compute; discriminate].
Qed.

(** ** The properties over whole evaluations *)

(** C6. [set_error_pos] replaces the recorded error position by the
    current one exactly when the current iterator is strictly beyond
    it, and else changes nothing; [restore] leaves the error position
    alone; so no evaluation of an expression or of a rule, however it
    leaves, and no step of the driver moves the error position back. *)
Theorem furthest_error_never_decreases (G : grammar) :
  (forall c,
     (m_it (m_error_pos c) < m_it (m_pos c) /\
      m_error_pos (set_error_pos c) = m_pos c) \/
     (m_it (m_pos c) <= m_it (m_error_pos c) /\ set_error_pos c = c)) /\
  (forall st c, m_error_pos (restore st c) = m_error_pos c) /\
  (forall fuel tm e s,
     error_offset s <= error_offset (snd (parse_expr G fuel tm e s))) /\
  (forall fuel tm r s,
     error_offset s <= error_offset (snd (parse_rule G fuel tm r s))) /\
  (forall fuel i g ws rs,
     let s0 := mk_machine (context_init i ws) rs 0 in
     let s1 := snd (parse_rule G fuel TERM ws s0) in
     let s2 := snd (parse_rule G fuel NON_TERM g s1) in
     let s3 := snd (parse_rule G fuel TERM ws s2) in
     error_offset s0 <= error_offset s1 /\
     error_offset s1 <= error_offset s2 /\
     error_offset s2 <= error_offset s3).
Proof.
  assert (He : forall fuel tm e s,
             error_offset s <= error_offset (snd (parse_expr G fuel tm e s))).
  { intros fuel tm e s. apply (error_offset_kept G fuel).
    destruct tm; simpl; auto. }
  assert (Hr : forall fuel tm r s,
             error_offset s <= error_offset (snd (parse_rule G fuel tm r s))).
  { intros fuel tm r s. apply (error_offset_kept G fuel).
    destruct tm; simpl; auto. }
  split; [exact set_error_pos_cases |].
  split; [reflexivity |].
  split; [exact He |].
  split; [exact Hr |].
  intros fuel i g ws rs s0 s1 s2 s3. repeat split; apply Hr.
Qed.

(** C8. An evaluation in terminal mode never calls [parse_ws],
    whatever the expression and however the evaluation leaves; both
    entry points of [_term] run the operand in terminal mode, so
    nothing under a [_term] calls it either, and the same holds for a
    rule entered through [parse_term]. *)
Theorem terminal_mode_never_skips_whitespace (G : grammar) (fuel : nat)
  (e : _expr) (s : machine) :
  ws_calls (snd (parse_expr G fuel TERM e s)) = ws_calls s /\
  (forall tm, parse_expr G (S fuel) tm (_term e) s = parse_expr G fuel TERM e s) /\
  (forall tm, ws_calls (snd (parse_expr G fuel tm (_term e) s)) = ws_calls s) /\
  (forall r, ws_calls (snd (parse_rule G fuel TERM r s)) = ws_calls s).
Proof.
  assert (He : forall f e' s', ws_calls (snd (parse_expr G f TERM e' s'))
                               = ws_calls s').
  { intros f e' s'. symmetry. apply (ws_calls_kept_in_term G f). exact I. }
  split; [apply He |]. split; [reflexivity |]. split.
  - intros tm. destruct fuel as [| f]; [reflexivity |]. apply He.
  - intros r. symmetry. apply (ws_calls_kept_in_term G fuel). exact I.
Qed.

(** C9. [_parse_non_term] and [_parse_term] append a record only for a
    rule that has a parse procedure, and [restore] only ever truncates
    the log; so a log whose records are registered stays so through any
    evaluation, [do_parse_procs] finds a procedure for every record of
    such a log, and [parse], which starts from the empty log, never
    calls through a null procedure. *)
Theorem match_records_have_procs (G : grammar) :
  (forall fuel tm r s,
     Forall (registered G) (log s) ->
     Forall (registered G) (log (snd (parse_rule G fuel tm r s)))) /\
  (forall fuel tm e s,
     Forall (registered G) (log s) ->
     Forall (registered G) (log (snd (parse_expr G fuel tm e s)))) /\
  (forall ms,
     Forall (registered G) ms -> exists calls, do_parse_procs G ms = Some calls) /\
  (forall fuel i g ws el rs, parse G fuel i g ws el rs <> NullCall).
Proof.
  assert (Hr : forall fuel tm r s,
             Forall (registered G) (log s) ->
             Forall (registered G) (log (snd (parse_rule G fuel tm r s)))).
  { intros fuel tm r s. apply (log_grows_kept G fuel).
    destruct tm; simpl; auto. }
  assert (Hd : forall ms, Forall (registered G) ms ->
                          exists calls, do_parse_procs G ms = Some calls).
  { intros ms H. pose proof (do_parse_procs_registered G ms H) as N.
    destruct (do_parse_procs G ms) as [calls |]; [eauto | congruence]. }
  split; [exact Hr |]. split; [| split; [exact Hd |]].
  - intros fuel tm e s. apply (log_grows_kept G fuel).
    destruct tm; simpl; auto.
  - intros fuel i g ws el rs. unfold parse.
    set (s0 := mk_machine (context_init i ws) rs 0).
    assert (H0 : Forall (registered G) (log s0)) by constructor.
    pose proof (Hr fuel TERM ws s0 H0) as H1.
    destruct (parse_rule G fuel TERM ws s0) as [[ok1 | r1 |] s1];
      try discriminate.
    pose proof (Hr fuel NON_TERM g s1 H1) as H2.
    destruct (parse_rule G fuel NON_TERM g s1) as [[[|] | r2 |] s2];
      try discriminate;
      [| destruct (_syntax_error (con s2)); discriminate].
    pose proof (Hr fuel TERM ws s2 H2) as H3.
    destruct (parse_rule G fuel TERM ws s2) as [[ok3 | r3 |] s3];
      try discriminate.
    destruct (negb (end_ (con s3))).
    + destruct (m_it (m_error_pos (con s3)) <? length (m_input (con s3)));
        [destruct (_syntax_error (con s3)) |]; discriminate.
    + destruct (Hd _ H3) as [calls E]. unfold log in E. simpl in E.
      rewrite E. discriminate.
Qed.

(** ** Concrete runs *)

(** [1 + 2] parses; the records are those of the two numbers. *)
Example calc_parses :
  forall fuel, 40 <= fuel ->
  parse G_calc fuel [49; 32; 43; 32; 50]%Z 1 0 [] fresh_rules
  = Returns true []
      (Some [mk_proc_call 2 (mk_pos 0 1 1) (mk_pos 1 1 2);
             mk_proc_call 2 (mk_pos 4 1 5) (mk_pos 5 1 6)]).
Proof.
  intros fuel Hle.
  rewrite (parse_enough_fuel G_calc 40 fuel);
    [reflexivity | exact Hle | vm_compute; discriminate].
Qed.

(** The unproductive rule [a = a] fails on [x] with a SYNTAX error at
    offset 0. *)
Example unproductive_rule_fails :
  forall fuel, 10 <= fuel ->
  parse (mk_grammar (fun r => match r with 0 => ws_blanks | _ => _ref 1 end)
                    (fun _ => None))
        fuel [120]%Z 1 0 [] fresh_rules
  = Returns false
      [mk_error (mk_pos 0 1 1) (mk_pos 1 1 2) ERROR_SYNTAX_ERROR] None.
Proof.
  intros fuel Hle.
  rewrite (parse_enough_fuel _ 10 fuel);
    [reflexivity | exact Hle | vm_compute; discriminate].
Qed.

(** C2, counterexample. On [ac] the sequence ['a' 'b'] returns false
    in either mode with the position after the [a]. *)
Lemma seq_failure_keeps_advance :
  fst (parse_expr G_calc 10 NON_TERM (_seq (_char 97) (_char 98))
         (start [97; 99]%Z)) = Ret false /\
  fst (parse_expr G_calc 10 TERM (_seq (_char 97) (_char 98))
         (start [97; 99]%Z)) = Ret false /\
  m_pos (con (start [97; 99]%Z)) = mk_pos 0 1 1 /\
  m_pos (con (snd (parse_expr G_calc 10 NON_TERM (_seq (_char 97) (_char 98))
                     (start [97; 99]%Z)))) = mk_pos 1 1 2 /\
  m_pos (con (snd (parse_expr G_calc 10 TERM (_seq (_char 97) (_char 98))
                     (start [97; 99]%Z)))) = mk_pos 1 1 2.
Proof. repeat split. Qed.

(** The match log is not put back either: [num '+'] on [1] fails
    after [num] has been logged. *)
Example seq_failure_keeps_records :
  fst (parse_expr G_calc 10 NON_TERM (_seq (_ref 2) (_char 43))
         (start [49]%Z)) = Ret false /\
  length (log (start [49]%Z)) = 0 /\
  length (log (snd (parse_expr G_calc 10 NON_TERM (_seq (_ref 2) (_char 43))
                      (start [49]%Z)))) = 1.
Proof. repeat split. Qed.

(** On [ac] a choice between the string [ab] and a lookahead for [b]
    fails, and it fails back at the start. *)
Lemma failure_restores_where_snapshotted_witness :
  m_pos (con (snd (parse_expr G_calc 10 NON_TERM
                     (_choice (_string [97; 98]%Z) (_and (_char 98)))
                     (start [97; 99]%Z))))
  = m_pos (con (start [97; 99]%Z)) /\
  length (m_matches (con (snd (parse_expr G_calc 10 NON_TERM
                                 (_choice (_string [97; 98]%Z) (_and (_char 98)))
                                 (start [97; 99]%Z)))))
  = length (m_matches (con (start [97; 99]%Z))).
Proof.
  apply (failure_restores_where_snapshotted G_calc 10 NON_TERM
           (_choice (_string [97; 98]%Z) (_and (_char 98)))
           (start [97; 99]%Z)).
  - reflexivity.
  - reflexivity.
Defined.

(** C3, counterexample. On [ac] the string [ab] returns false in
    either mode and the position stays after the [a]. *)
Lemma string_failure_keeps_advance :
  fst (parse_expr G_calc 1 NON_TERM (_string [97; 98]%Z) (start [97; 99]%Z))
  = Ret false /\
  fst (parse_expr G_calc 1 TERM (_string [97; 98]%Z) (start [97; 99]%Z))
  = Ret false /\
  m_pos (con (start [97; 99]%Z)) = mk_pos 0 1 1 /\
  m_pos (con (snd (parse_expr G_calc 1 NON_TERM (_string [97; 98]%Z)
                     (start [97; 99]%Z)))) = mk_pos 1 1 2 /\
  m_pos (con (snd (parse_expr G_calc 1 TERM (_string [97; 98]%Z)
                     (start [97; 99]%Z)))) = mk_pos 1 1 2.
Proof. repeat split. Qed.

(** On [ac] the string [ab] matches one character and stops there. *)
Lemma string_advances_over_matched_prefix_witness :
  fst (parse_expr G_calc 1 TERM (_string [97; 98]%Z) (start [97; 99]%Z))
  = Ret false /\
  1 <= 2 /\
  m_pos (con (snd (parse_expr G_calc 1 TERM (_string [97; 98]%Z)
                     (start [97; 99]%Z)))) = mk_pos 1 1 2 /\
  log (snd (parse_expr G_calc 1 TERM (_string [97; 98]%Z) (start [97; 99]%Z)))
  = [].
Proof.
  apply (string_advances_over_matched_prefix G_calc 0 TERM [97; 98]%Z
           (start [97; 99]%Z)).
  vm_compute. lia.
Defined.

(** The re-entry of [expr] inside an iteration of its grow loop. *)
Lemma left_recursive_reentry_witness :
  fst (parse_rule G_calc 1 NON_TERM 1 s_growing) = Ret true /\
  con (snd (parse_rule G_calc 1 NON_TERM 1 s_growing)) = con s_growing.
Proof.
  pose proof (left_recursive_reentry G_calc 0 NON_TERM 1 s_growing eq_refl)
    as (_ & Ha & Hc).
  split.
  - apply Ha. reflexivity.
  - apply Hc. discriminate.
Defined.

(** On two blanks and an [x], zero-or-more ['a'] returns true at
    offset 2. *)
Lemma loop0_keeps_skipped_whitespace_witness :
  m_pos (con (start [32; 32; 120]%Z)) = mk_pos 0 1 1 /\
  fst (parse_expr G_calc 10 NON_TERM (_loop0 (_char 97))
         (start [32; 32; 120]%Z)) = Ret true /\
  m_pos (con (snd (parse_expr G_calc 10 NON_TERM (_loop0 (_char 97))
                     (start [32; 32; 120]%Z)))) = mk_pos 2 1 3.
Proof.
  pose proof (loop0_keeps_skipped_whitespace G_calc 9 (_char 97)
                (start [32; 32; 120]%Z)
                (snd (skip_ws (parse_rule G_calc 9) NON_TERM
                        (start [32; 32; 120]%Z)))
                (snd (parse_expr G_calc 9 NON_TERM (_char 97)
                        (snd (skip_ws (parse_rule G_calc 9) NON_TERM
                                (start [32; 32; 120]%Z)))))
                true eq_refl eq_refl) as (E & Hp & _).
  split; [reflexivity |]. split.
  - rewrite E. reflexivity.
  - rewrite Hp. reflexivity.
Defined.

(** [1+] matches [1] and stops before the [+], the furthest error being
    at the end of the input: one INVALID_EOF error. *)
Example calc_stops_before_dangling_operator :
  forall fuel, 40 <= fuel ->
  parse G_calc fuel [49; 43]%Z 1 0 [] fresh_rules
  = Returns false
      [mk_error (mk_pos 2 1 3) (mk_pos 2 1 3) ERROR_INVALID_EOF] None.
Proof.
  intros fuel Hle.
  rewrite (parse_enough_fuel G_calc 40 fuel);
    [reflexivity | exact Hle | vm_compute; discriminate].
Qed.

(** The two records logged for [1+2] belong to [num]. *)
Lemma match_records_have_procs_witness :
  Forall (registered G_calc)
    (log (snd (parse_rule G_calc 40 NON_TERM 1 (start [49; 43; 50]%Z)))) /\
  length (log (snd (parse_rule G_calc 40 NON_TERM 1 (start [49; 43; 50]%Z))))
  = 2.
Proof.
  split; [| reflexivity].
  apply (proj1 (match_records_have_procs G_calc)). constructor.
Defined.

(** ** Sets of characters *)

Lemma length_set_flag (i : nat) (flags : list bool) :
  length (set_flag i flags) = length flags.
Proof.
  revert flags. induction i as [| i IH]; intros [| x t]; simpl; auto.
Qed.

Lemma nth_set_flag (i j : nat) (flags : list bool) :
  nth j (set_flag i flags) false
  = ((j =? i) && (i <? length flags)) || nth j flags false.
Proof.
  revert j flags. induction i as [| i IH]; intros [| j] [| x t]; simpl;
    rewrite ?andb_false_r; try reflexivity.
  rewrite IH. reflexivity.
Qed.

Lemma nth_padded (j k : nat) (flags : list bool) :
  nth j (flags ++ repeat false k) false = nth j flags false.
Proof.
  destruct (Nat.lt_ge_cases j (length flags)) as [H | H].
  - apply app_nth1. exact H.
  - rewrite app_nth2 by exact H. rewrite (nth_overflow flags) by exact H.
    apply nth_repeat.
Qed.

Lemma nth_added (i j : nat) (flags : list bool) :
  nth j (added i flags) false = (j =? i) || nth j flags false.
Proof.
  unfold added. rewrite nth_set_flag.
  destruct (length flags <=? i) eqn:E.
  - apply Nat.leb_le in E. rewrite nth_padded, length_app, repeat_length.
    replace (i <? length flags + (S i - length flags)) with true
      by (symmetry; apply Nat.ltb_lt; lia).
    rewrite andb_true_r. reflexivity.
  - apply Nat.leb_gt in E. apply Nat.ltb_lt in E. rewrite E.
    rewrite andb_true_r. reflexivity.
Qed.

Lemma length_added (i : nat) (flags : list bool) :
  length (added i flags) = Nat.max (length flags) (S i).
Proof.
  unfold added. rewrite length_set_flag.
  destruct (length flags <=? i) eqn:E.
  - apply Nat.leb_le in E. rewrite length_app, repeat_length. lia.
  - apply Nat.leb_gt in E. lia.
Qed.

Lemma nth_fold_added (cs : list Z) (j : nat) (flags : list bool) :
  nth j (fold_left (fun fl c => added (Z.to_nat c) fl) cs flags) false = true
  <-> In j (map Z.to_nat cs) \/ nth j flags false = true.
Proof.
  revert flags. induction cs as [| c cs IH]; intros flags; simpl.
  - tauto.
  - rewrite IH, nth_added, orb_true_iff, Nat.eqb_eq. intuition congruence.
Qed.

Lemma nth_fold_set_flag (l : list nat) (j : nat) (flags : list bool) :
  (forall i, In i l -> i < length flags) ->
  nth j (fold_left (fun fl i => set_flag i fl) l flags) false = true <->
  In j l \/ nth j flags false = true.
Proof.
  revert flags. induction l as [| i l IH]; intros flags Hl; simpl.
  - tauto.
  - rewrite IH.
    + rewrite nth_set_flag, orb_true_iff, andb_true_iff, Nat.eqb_eq,
        Nat.ltb_lt.
      assert (i < length flags) by (apply Hl; left; reflexivity).
      intuition congruence.
    + intros i' Hi'. rewrite length_set_flag. apply Hl. right. exact Hi'.
Qed.

Lemma _set_parse_true (flags : list bool) (c : _context) :
  fst (_set_parse flags c) = true <->
  end_ c = false /\ (0 <= symbol c)%Z /\
  nth (Z.to_nat (symbol c)) flags false = true.
Proof.
  unfold _set_parse.
  destruct (end_ c); simpl; [intuition discriminate |].
  destruct (0 <=? symbol c)%Z eqn:E0; simpl.
  - apply Z.leb_le in E0.
    destruct (Z.to_nat (symbol c) <? length flags) eqn:El; simpl.
    + destruct (nth (Z.to_nat (symbol c)) flags false); simpl;
        intuition discriminate.
    + apply Nat.ltb_ge in El. rewrite (nth_overflow flags) by exact El.
      intuition discriminate.
  - apply Z.leb_gt in E0. split; [discriminate | intros (_ & H & _); lia].
Qed.

Lemma parse_expr_set (G : grammar) (f : nat) (tm : entry)
  (flags : list bool) (s : machine) :
  parse_expr G (S f) tm (_set flags) s = lift (_set_parse flags) s.
Proof. reflexivity. Qed.

(** What the set expression over [flags] accepts. *)
Lemma set_accepts (G : grammar) (f : nat) (tm : entry) (flags : list bool)
  (s : machine) (P : Z -> Prop) :
  (forall z, (0 <= z)%Z ->
             nth (Z.to_nat z) flags false = true <-> P z) ->
  (forall z, P z -> (0 <= z)%Z) ->
  fst (parse_expr G (S f) tm (_set flags) s) = Ret true <->
  end_ (con s) = false /\ P (symbol (con s)).
Proof.
  intros Hn Hp. rewrite parse_expr_set. unfold lift.
  pose proof (_set_parse_true flags (con s)) as H.
  destruct (_set_parse flags (con s)) as [ok c'].
  change (fst (ok, c')) with ok in H.
  change (fst (Ret ok, with_con c' s)) with (Ret ok).
  destruct ok; split; intros H1.
  - destruct H as [H _]. specialize (H eq_refl).
    destruct H as (A & B & C). split; [exact A |]. apply Hn; assumption.
  - reflexivity.
  - discriminate.
  - destruct H as [_ H]. destruct H1 as (A & B).
    discriminate H. split; [exact A |]. split; [auto |].
    apply Hn; auto.
Qed.

(** *** Conversions to [size_t] *)

Lemma to_size_t_fits (z : Z) :
  (0 <= z <= SIZE_MAX)%Z -> to_size_t z = z.
Proof. intros H. unfold to_size_t. apply Z.mod_small. lia. Qed.

Lemma to_size_t_negative (z : Z) :
  (- SIZE_MAX - 1 <= z < 0)%Z -> to_size_t z = (z + SIZE_MAX + 1)%Z.
Proof.
  intros H. unfold to_size_t. symmetry.
  apply (Z.mod_unique _ _ (-1)); [left | ]; unfold SIZE_MAX in *; lia.
Qed.

Lemma int_range (x : int) : (INT_MIN <= x <= INT_MAX)%Z.
Proof.
  destruct x as [v Hv]. simpl. apply andb_true_iff in Hv.
  destruct Hv as [A B]. apply Z.leb_le in A. apply Z.leb_le in B. lia.
Qed.

Lemma char_value_range (char_is_signed : bool) (a : ascii) :
  (-128 <= char_value char_is_signed a <= 255)%Z /\
  (char_is_signed = false -> (0 <= char_value char_is_signed a)%Z) /\
  (char_is_signed = true ->
   ((0 <= char_value char_is_signed a)%Z <-> (N_of_ascii a < 128)%N)).
Proof.
  pose proof (N_ascii_bounded a) as B. unfold char_value.
  destruct char_is_signed; simpl.
  - destruct (128 <=? Z.of_N (N_of_ascii a))%Z eqn:E;
      [apply Z.leb_le in E | apply Z.leb_gt in E];
      (split; [lia | split; [discriminate | intros _; lia]]).
  - split; [lia | split; [lia | discriminate]].
Qed.

(** *** [_add] *)

Lemma _add_fits (i : Z) (flags : list bool) :
  (0 <= i < max_size)%Z ->
  _add i flags = Built (added (Z.to_nat i) flags).
Proof.
  intros Hi. unfold _add, added.
  destruct (Z.of_nat (length flags) <=? i)%Z eqn:E.
  - apply Z.leb_le in E.
    replace (length flags <=? Z.to_nat i) with true
      by (symmetry; apply Nat.leb_le; lia).
    unfold resize_flags.
    rewrite to_size_t_fits by (unfold max_size, SIZE_MAX in *; lia).
    replace (max_size <? i + 1)%Z with false
      by (symmetry; apply Z.ltb_ge; lia).
    rewrite firstn_all2 by lia.
    replace (Z.to_nat (i + 1)) with (S (Z.to_nat i)) by lia.
    unfold write_flag. rewrite length_app, repeat_length.
    replace (i <? Z.of_nat (length flags + (S (Z.to_nat i) - length flags)))%Z
      with true by (symmetry; apply Z.ltb_lt; lia).
    reflexivity.
  - apply Z.leb_gt in E.
    replace (length flags <=? Z.to_nat i) with false
      by (symmetry; apply Nat.leb_gt; lia).
    unfold write_flag.
    replace (i <? Z.of_nat (length flags))%Z with true
      by (symmetry; apply Z.ltb_lt; lia).
    reflexivity.
Qed.

Lemma _add_beyond (i : Z) (flags : list bool) :
  (max_size <= i <= SIZE_MAX)%Z ->
  (Z.of_nat (length flags) <= i)%Z ->
  _add i flags = if (i =? SIZE_MAX)%Z then Undefined else LengthError.
Proof.
  intros Hi Hl. unfold _add.
  replace (Z.of_nat (length flags) <=? i)%Z with true
    by (symmetry; apply Z.leb_le; lia).
  unfold resize_flags.
  destruct (i =? SIZE_MAX)%Z eqn:E.
  - apply Z.eqb_eq in E. subst i.
    change (to_size_t (SIZE_MAX + 1)) with 0%Z.
    change (max_size <? 0)%Z with false. cbn [Z.to_nat firstn Nat.sub repeat app].
    unfold write_flag. cbn [length Z.of_nat].
    replace (SIZE_MAX <? 0)%Z with false by reflexivity. reflexivity.
  - apply Z.eqb_neq in E.
    rewrite to_size_t_fits by lia.
    replace (max_size <? i + 1)%Z with true
      by (symmetry; apply Z.ltb_lt; lia).
    reflexivity.
Qed.

(** *** The constructor from a string *)

Lemma add_chars_fit (cs : list Z) (flags : list bool) :
  Forall (fun c => (0 <= c < max_size)%Z) cs ->
  add_chars cs flags
  = Built (fold_left (fun fl c => added (Z.to_nat c) fl) cs flags).
Proof.
  intros H. revert flags. induction H as [| c cs Hc _ IH]; intros flags.
  - reflexivity.
  - cbn [add_chars fold_left].
    rewrite to_size_t_fits by (unfold max_size, SIZE_MAX in *; lia).
    rewrite (_add_fits c flags Hc). apply IH.
Qed.

Lemma length_fold_added (cs : list Z) (flags : list bool) (n : nat) :
  Forall (fun c => (0 <= c < Z.of_nat n)%Z) cs ->
  length flags <= n ->
  length (fold_left (fun fl c => added (Z.to_nat c) fl) cs flags) <= n.
Proof.
  intros H. revert flags. induction H as [| c cs Hc _ IH]; intros flags Hl.
  - exact Hl.
  - cbn [fold_left]. apply IH. rewrite length_added. lia.
Qed.

Lemma add_chars_app (pre rest : list Z) (flags : list bool) :
  add_chars (pre ++ rest) flags
  = match add_chars pre flags with
    | Built flags' => add_chars rest flags'
    | failed => failed
    end.
Proof.
  revert flags. induction pre as [| c pre IH]; intros flags.
  - reflexivity.
  - cbn [app add_chars].
    destruct (_add (to_size_t c) flags); try reflexivity. apply IH.
Qed.

(** The first negative character ends the construction. *)
Lemma add_chars_negative (pre rest : list Z) (c : Z) :
  Forall (fun c => (0 <= c <= 255)%Z) pre ->
  (-128 <= c < 0)%Z ->
  add_chars (pre ++ c :: rest) []
  = if (c =? -1)%Z then Undefined else LengthError.
Proof.
  intros Hpre Hc. rewrite add_chars_app, add_chars_fit.
  - cbn [add_chars].
    rewrite to_size_t_negative by (unfold SIZE_MAX; lia).
    rewrite _add_beyond.
    + destruct (c =? -1)%Z eqn:E.
      * apply Z.eqb_eq in E. subst c. reflexivity.
      * apply Z.eqb_neq in E.
        replace (c + SIZE_MAX + 1 =? SIZE_MAX)%Z with false
          by (symmetry; apply Z.eqb_neq; lia).
        reflexivity.
    + unfold max_size, SIZE_MAX. lia.
    + assert (L : length (fold_left (fun fl c0 => added (Z.to_nat c0) fl)
                            pre []) <= 256).
      { apply length_fold_added; [| simpl; lia].
        eapply Forall_impl; [| exact Hpre]. simpl. intros; lia. }
      unfold SIZE_MAX. lia.
  - eapply Forall_impl; [| exact Hpre]. unfold max_size. simpl. intros; lia.
Qed.

(** A list of values is free of negative ones, or has a first one. *)
Lemma first_negative (cs : list Z) :
  Forall (fun c => (0 <= c)%Z) cs \/
  exists pre c rest,
    cs = pre ++ c :: rest /\ Forall (fun c => (0 <= c)%Z) pre /\ (c < 0)%Z.
Proof.
  induction cs as [| c cs [IH | (pre & c' & rest & E & Hp & Hc)]].
  - left. constructor.
  - destruct (Z_lt_le_dec c 0) as [Hn | Hn].
    + right. exists [], c, cs. repeat split; [constructor | exact Hn].
    + left. constructor; assumption.
  - destruct (Z_lt_le_dec c 0) as [Hn | Hn].
    + right. exists [], c, cs. repeat split; [constructor | exact Hn].
    + right. exists (c :: pre), c', rest. subst cs.
      repeat split; [constructor; assumption | exact Hc].
Qed.

(** X1. The constructor of a set from a string returns exactly when no
    character before the terminating zero has a negative value, which
    a signed [char] has from the byte 128 on; the set then matches
    exactly the characters of the string: the expression returns true
    if and only if the input is not at its end and the current symbol
    is one of them. At the first negative character the index is
    converted to a [size_t] beyond any vector: [resize] throws
    [std::length_error], and for the character -1 the size wraps to 0
    and the write is outside the vector. *)
Theorem set_of_string_matches_its_characters (G : grammar) (f : nat)
  (tm : entry) (char_is_signed : bool) (str : string) (s : machine) :
  let cs := map (char_value char_is_signed) (c_str str) in
  ((exists m_set, _set_of_string char_is_signed str = Built m_set) <->
   Forall (fun c => (0 <= c)%Z) cs) /\
  (forall m_set,
     _set_of_string char_is_signed str = Built m_set ->
     (fst (parse_expr G (S f) tm (_set m_set) s) = Ret true <->
      end_ (con s) = false /\ In (symbol (con s)) cs)) /\
  (forall pre c rest,
     cs = pre ++ c :: rest ->
     Forall (fun c => (0 <= c)%Z) pre -> (c < 0)%Z ->
     _set_of_string char_is_signed str
     = if (c =? -1)%Z then Undefined else LengthError) /\
  (char_is_signed = false -> Forall (fun c => (0 <= c)%Z) cs) /\
  (char_is_signed = true ->
   (Forall (fun c => (0 <= c)%Z) cs <->
    Forall (fun a => (N_of_ascii a < 128)%N) (c_str str))).
Proof.
  intros cs.
  assert (Hrange : Forall (fun c => (-128 <= c <= 255)%Z) cs).
  { subst cs. apply Forall_forall. intros c Hc. apply in_map_iff in Hc.
    destruct Hc as (a & <- & _). apply char_value_range. }
  assert (Hfit : Forall (fun c => (0 <= c)%Z) cs ->
                 _set_of_string char_is_signed str
                 = Built (fold_left (fun fl c => added (Z.to_nat c) fl)
                            cs [])).
  { intros H. unfold _set_of_string. fold cs. apply add_chars_fit.
    rewrite Forall_forall in *. intros c Hc.
    specialize (H c Hc). specialize (Hrange c Hc). unfold max_size. lia. }
  assert (Hneg : forall pre c rest,
             cs = pre ++ c :: rest ->
             Forall (fun c => (0 <= c)%Z) pre -> (c < 0)%Z ->
             _set_of_string char_is_signed str
             = if (c =? -1)%Z then Undefined else LengthError).
  { intros pre c rest E Hp Hc. unfold _set_of_string. fold cs. rewrite E.
    rewrite E in Hrange. apply Forall_app in Hrange.
    destruct Hrange as [Rp Rc]. inversion Rc as [| ? ? Rc' _]; subst.
    apply add_chars_negative; [| lia].
    rewrite Forall_forall in *. intros x Hx.
    specialize (Hp x Hx). specialize (Rp x Hx). lia. }
  assert (Hbuilt : forall m_set,
             _set_of_string char_is_signed str = Built m_set ->
             Forall (fun c => (0 <= c)%Z) cs).
  { intros m_set E.
    destruct (first_negative cs) as [H | (pre & c & rest & Ec & Hp & Hc)];
      [exact H |].
    rewrite (Hneg pre c rest Ec Hp Hc) in E.
    destruct (c =? -1)%Z; discriminate. }
  split; [| split; [| split; [exact Hneg | split]]].
  - split; [intros [m_set E]; exact (Hbuilt m_set E) |].
    intros H. eexists. apply Hfit. exact H.
  - intros m_set E. pose proof (Hbuilt m_set E) as Hpos.
    rewrite (Hfit Hpos) in E. injection E as <-.
    apply (set_accepts G f tm _ s (fun z => In z cs)).
    + intros z Hz. rewrite nth_fold_added. split.
      * intros [H | H]; [| destruct (Z.to_nat z); discriminate].
        apply in_map_iff in H. destruct H as (c & Ec & Hc).
        rewrite Forall_forall in Hpos. specialize (Hpos c Hc).
        replace z with c by lia. exact Hc.
      * intros H. left. apply in_map. exact H.
    + intros z Hz. rewrite Forall_forall in Hpos. apply Hpos. exact Hz.
  - intros ->. subst cs. apply Forall_forall. intros c Hc.
    apply in_map_iff in Hc. destruct Hc as (a & <- & _).
    destruct (char_value_range false a) as (_ & H & _). apply H. reflexivity.
  - intros ->. subst cs. rewrite Forall_map.
    split; intros H; (eapply Forall_impl; [| exact H]); intros a Ha;
      destruct (char_value_range true a) as (_ & _ & C);
      apply (C eq_refl); exact Ha.
Qed.

(** *** The constructor from a range *)

Lemma fill_range_flags (min max : nat) :
  min <= max ->
  length (fill_range min max) = S max /\
  forall j, nth j (fill_range min max) false = true <-> min <= j <= max.
Proof.
  intros Hle. unfold fill_range.
  assert (Hlen : forall l fl, length (fold_left
                   (fun flags i => set_flag i flags) l fl) = length fl).
  { induction l as [| i l IH]; intros fl; [reflexivity |].
    cbn [fold_left]. rewrite IH. apply length_set_flag. }
  split.
  - rewrite Hlen. apply repeat_length.
  - intros j. rewrite nth_fold_set_flag.
    + rewrite nth_repeat, in_seq. split; [intros [H | H] | intros H].
      * lia.
      * discriminate.
      * left. lia.
    + intros i Hi. apply in_seq in Hi. rewrite repeat_length. lia.
Qed.

Lemma write_flag_inside (i : Z) (flags : list bool) :
  (0 <= i < Z.of_nat (length flags))%Z ->
  write_flag i flags = Built (set_flag (Z.to_nat i) flags).
Proof.
  intros H. unfold write_flag.
  replace (i <? Z.of_nat (length flags))%Z with true
    by (symmetry; apply Z.ltb_lt; lia).
  reflexivity.
Qed.

(** The loop comes to its end when [max] is below [INT_MAX]. *)
Lemma range_loop_fits : forall (k : nat) (min : Z) (flags : list bool),
  (0 <= min)%Z -> (min + Z.of_nat k <= INT_MAX)%Z ->
  Z.to_nat min + k <= length flags ->
  range_loop k min flags
  = Built (fold_left (fun fl i => set_flag i fl) (seq (Z.to_nat min) k) flags).
Proof.
  induction k as [| k IH]; intros min flags H0 Hk Hl.
  - reflexivity.
  - cbn [range_loop seq fold_left].
    rewrite to_size_t_fits by (unfold INT_MAX, SIZE_MAX in *; lia).
    rewrite write_flag_inside by lia.
    replace (min =? INT_MAX)%Z with false
      by (symmetry; apply Z.eqb_neq; lia).
    rewrite IH; [| lia | lia | rewrite length_set_flag; lia].
    replace (Z.to_nat (min + 1)) with (S (Z.to_nat min)) by lia.
    reflexivity.
Qed.

(** With [max] at [INT_MAX] the loop reaches the increment that
    overflows. *)
Lemma range_loop_overflows : forall (k : nat) (min : Z) (flags : list bool),
  (0 <= min)%Z -> (min + Z.of_nat k = INT_MAX + 1)%Z -> 0 < k ->
  Z.to_nat min + k <= length flags ->
  range_loop k min flags = Undefined.
Proof.
  induction k as [| k IH]; intros min flags H0 Hk Hpos Hl; [lia |].
  cbn [range_loop].
  rewrite to_size_t_fits by (unfold INT_MAX, SIZE_MAX in *; lia).
  rewrite write_flag_inside by lia.
  destruct (min =? INT_MAX)%Z eqn:E; [reflexivity |].
  apply Z.eqb_neq in E.
  apply IH; [lia | lia | lia | rewrite length_set_flag; lia].
Qed.

Lemma _set_of_range_cases (min max : int) :
  _set_of_range min max
  = if ((min <? 0) || (max <? min))%Z then AssertionFailed
    else if (max =? INT_MAX)%Z then Undefined
    else Built (fill_range (Z.to_nat min) (Z.to_nat max)).
Proof.
  pose proof (int_range min) as Rm. pose proof (int_range max) as RM.
  unfold _set_of_range.
  destruct (min <? 0)%Z eqn:E0;
    [apply Z.ltb_lt in E0 | apply Z.ltb_ge in E0].
  { replace (0 <=? min)%Z with false by (symmetry; apply Z.leb_gt; lia).
    reflexivity. }
  replace (0 <=? min)%Z with true by (symmetry; apply Z.leb_le; lia).
  destruct (max <? min)%Z eqn:E1;
    [apply Z.ltb_lt in E1 | apply Z.ltb_ge in E1].
  { replace (min <=? max)%Z with false by (symmetry; apply Z.leb_gt; lia).
    reflexivity. }
  replace (min <=? max)%Z with true by (symmetry; apply Z.leb_le; lia).
  cbn [negb orb].
  rewrite (to_size_t_fits max) by (unfold INT_MAX, SIZE_MAX in *; lia).
  rewrite to_size_t_fits by (unfold INT_MAX, SIZE_MAX in *; lia).
  unfold resize_flags.
  replace (max_size <? max + 1)%Z with false
    by (symmetry; apply Z.ltb_ge; unfold INT_MAX, max_size in *; lia).
  rewrite firstn_nil. cbn [length app]. rewrite Nat.sub_0_r.
  destruct (max =? INT_MAX)%Z eqn:E2;
    [apply Z.eqb_eq in E2 | apply Z.eqb_neq in E2].
  - apply range_loop_overflows; try lia. rewrite repeat_length. lia.
  - rewrite range_loop_fits; try lia; [| rewrite repeat_length; lia].
    unfold fill_range.
    replace (Z.to_nat (max + 1 - min))
      with (S (Z.to_nat max) - Z.to_nat min) by lia.
    replace (Z.to_nat (max + 1)) with (S (Z.to_nat max)) by lia.
    reflexivity.
Qed.

(** X2. The constructor of a set from two [int] bounds fails its
    assertions exactly when [min] is negative or above [max]; with
    [max] at [INT_MAX] the increment at the end of the loop overflows;
    in every other case it returns a vector of [max + 1] flags and the
    set matches exactly the symbols from [min] to [max]. *)
Theorem set_of_range_matches_its_interval (G : grammar) (f : nat)
  (tm : entry) (min max : int) (s : machine) :
  (_set_of_range min max = AssertionFailed <-> (min < 0 \/ max < min)%Z) /\
  (_set_of_range min max = Undefined <->
   (0 <= min <= max)%Z /\ int_val max = INT_MAX) /\
  _set_of_range min max <> LengthError /\
  ((exists m_set, _set_of_range min max = Built m_set) <->
   (0 <= min <= max)%Z /\ (max < INT_MAX)%Z) /\
  (forall m_set,
     _set_of_range min max = Built m_set ->
     length m_set = S (Z.to_nat max) /\
     (fst (parse_expr G (S f) tm (_set m_set) s) = Ret true <->
      end_ (con s) = false /\ (min <= symbol (con s) <= max)%Z)).
Proof.
  pose proof (int_range max) as RM.
  rewrite _set_of_range_cases.
  destruct (min <? 0)%Z eqn:E0;
    [apply Z.ltb_lt in E0 | apply Z.ltb_ge in E0];
    (destruct (max <? min)%Z eqn:E1;
     [apply Z.ltb_lt in E1 | apply Z.ltb_ge in E1]);
    cbn [orb];
    try (split; [split; [intros _; lia | reflexivity] |];
         split; [split; [discriminate | lia] |];
         split; [discriminate |];
         split; [split; [intros [m E]; discriminate | lia] |];
         intros m E; discriminate).
  destruct (max =? INT_MAX)%Z eqn:E2;
    [apply Z.eqb_eq in E2 | apply Z.eqb_neq in E2].
  - split; [split; [discriminate | lia] |].
    split; [split; [intros _; lia | reflexivity] |].
    split; [discriminate |].
    split; [split; [intros [m E]; discriminate | lia] |].
    intros m E; discriminate.
  - split; [split; [discriminate | lia] |].
    split; [split; [discriminate | lia] |].
    split; [discriminate |].
    split; [split; [intros _; lia | intros _; eexists; reflexivity] |].
    intros m E. injection E as <-.
    destruct (fill_range_flags (Z.to_nat min) (Z.to_nat max)) as [Hl Hn];
      [lia |].
    split; [exact Hl |].
    apply (set_accepts G f tm _ s (fun z => (min <= z <= max)%Z)).
    + intros z Hz. rewrite Hn. lia.
    + intros z Hz. lia.
Qed.

(** ** Properties kept by every call, relative to its entry *)

Section PreservationFromEntry.

Variable G : grammar.

(** As in the section above, with the matchers taken whole (a matcher
    advances only when the input is not at its end) and with the record
    of a rule known to start where the rule was entered. *)
Variable R : machine -> machine -> Prop.
Variable skips : bool.

Hypothesis Q_refl : forall s, R s s.
Hypothesis Q_trans : forall s1 s2 s3, R s1 s2 -> R s2 s3 -> R s1 s3.
Hypothesis Q_char : forall c s, R s (snd (lift (_char_parse c) s)).
Hypothesis Q_string : forall str s, R s (snd (lift (_string_parse str) s)).
Hypothesis Q_set : forall flags s, R s (snd (lift (_set_parse flags) s)).
Hypothesis Q_any : forall s, R s (snd (lift _any_parse s)).
Hypothesis Q_eof : forall s, R s (snd (lift _eof_parse s)).
Hypothesis Q_next_line : forall s, R s (with_con (next_line (con s)) s).
Hypothesis Q_restore : forall s0 s1,
  R s0 s1 -> R s0 (with_con (restore (snapshot (con s0)) (con s1)) s1).
Hypothesis Q_push : forall s0 s1 r,
  get_parse_proc G r <> None ->
  R s0 s1 ->
  R s0 (with_con (push_match (mk_match r (m_pos (con s0)) (m_pos (con s1)))
                             (con s1)) s1).
Hypothesis Q_rule : forall s r v, R s (set_rule_state r v s).
Hypothesis Q_count_ws : forall s, skips = true -> R s (count_ws s).

Ltac after_call t H :=
  let E := fresh "E" in
  let H1 := fresh "H" in
  let thrown := fresh "thrown" in
  let m := fresh "m" in
  pose proof H as H1;
  destruct t as [[[|] | thrown | ] m] eqn:E;
  simpl in H1 |- *.

Ltac link n :=
  lazymatch n with
  | O => fail
  | S ?k =>
      first
        [ eassumption
        | apply Q_refl
        | apply Q_rule
        | apply Q_next_line
        | apply Q_restore; link k
        | match goal with
          | H : R ?a _ |- R ?a _ => eapply Q_trans; [exact H | link k]
          end
        | eapply Q_trans; [apply Q_rule | link k]
        | eapply Q_trans; [| apply Q_rule]; link k
        | eapply Q_trans; [| apply Q_next_line]; link k
        | eapply Q_trans; [| apply Q_restore; eassumption]; link k ]
  end.

Ltac chain := simpl; try solve [link 6].

Lemma kept_from_parse_ws (f : nat) (tm : entry) (s : machine) :
  kept G R skips f -> allowed skips tm ->
  R s (snd (skip_ws (parse_rule G f) tm s)).
Proof.
  intros (_ & _ & IHr & _) Ha. destruct tm; simpl.
  - eapply Q_trans; [apply Q_count_ws; exact Ha | apply IHr; exact I].
  - apply Q_refl.
Qed.

Lemma kept_from_iteration (f : nat) (tm : entry) (e : _expr) (s : machine) :
  kept G R skips f -> allowed skips tm ->
  R s (snd (call _, s0 <- skip_ws (parse_rule G f) tm s;;
            let st := snapshot (con s0) in
            call ok, s1 <- parse_expr G f tm e s0;;
            if ok then loop_rest G f tm e s1
            else (Ret true, with_con (restore st (con s1)) s1))).
Proof.
  intros K Ha. pose proof (kept_from_parse_ws f tm s K Ha) as Hw.
  destruct K as (IHe & IHl & _).
  revert Hw.
  match goal with |- context [bind ?t _] => destruct t as [[okw | rw | ] s0] end;
    simpl; intros Hw; auto.
  after_call (parse_expr G f tm e s0) (IHe tm e s0 Ha); chain.
  eapply Q_trans; [exact Hw |]. eapply Q_trans; [exact H | apply IHl; exact Ha].
Qed.

Lemma kept_from_all : forall fuel, kept G R skips fuel.
Proof.
  induction fuel as [| f K].
  - repeat split; intros; simpl; apply Q_refl.
  - pose proof K as (IHe & IHl & IHr & IHb & IHg).
    repeat split.
    + (* parse_expr *)
      intros tm e s Ha. destruct e; simpl.
      * apply Q_char.
      * apply Q_string.
      * apply Q_set.
      * apply IHe. exact I.
      * apply kept_from_iteration; assumption.
      * pose proof (kept_from_parse_ws f tm s K Ha) as Hw.
        revert Hw.
        match goal with |- context [bind ?t _] =>
          destruct t as [[okw | rw | ] s0] end; simpl; intros Hw; auto.
        after_call (parse_expr G f tm e s0) (IHe tm e s0 Ha); chain.
        eapply Q_trans; [exact Hw |].
        eapply Q_trans; [exact H | apply IHl; exact Ha].
      * after_call (parse_expr G f tm e s) (IHe tm e s Ha); chain.
      * after_call (parse_expr G f tm e s) (IHe tm e s Ha); chain.
      * after_call (parse_expr G f tm e s) (IHe tm e s Ha); chain.
      * after_call (parse_expr G f tm e s) (IHe tm e s Ha); chain.
      * after_call (parse_expr G f tm e1 s) (IHe tm e1 s Ha); chain.
        pose proof (kept_from_parse_ws f tm m K Ha) as Hw.
        revert Hw.
        match goal with |- context [bind ?t _] =>
          destruct t as [[okw | rw | ] s0] end; simpl; intros Hw; chain.
        eapply Q_trans; [exact H |].
        eapply Q_trans; [exact Hw | apply IHe; exact Ha].
      * after_call (parse_expr G f tm e1 s) (IHe tm e1 s Ha); chain.
        eapply Q_trans; [| apply IHe; exact Ha]. chain.
      * apply IHr; exact Ha.
      * apply Q_eof.
      * apply Q_any.
    + (* loop_rest *)
      intros tm e s Ha. simpl. apply kept_from_iteration; assumption.
    + (* parse_rule *)
      intros tm r s Ha. simpl. rewrite Nat.eqb_refl. simpl.
      set (s' := set_rpos r (Z.of_nat (offset (con s))) s).
      assert (Hs' : R s s') by apply Q_rule.
      destruct (rs_mode (rules s r)).
      * destruct (Z.of_nat (offset (con s)) =? rs_pos (rules s r))%Z.
        -- after_call (_parse_rule G f tm r (set_mode r _REJECT s'))
             (IHb tm r (set_mode r _REJECT s') Ha).
           ++ assert (Hm : R s m) by chain.
              after_call (grow G f tm r (set_mode r _ACCEPT m))
                (IHg tm r (set_mode r _ACCEPT m) Ha); chain.
           ++ chain.
           ++ chain.
           ++ chain.
        -- after_call (_parse_rule G f tm r s') (IHb tm r s' Ha); chain.
           destruct (thrown =? r); simpl; chain.
      * destruct (Z.of_nat (offset (con s)) =? rs_pos (rules s r))%Z;
          simpl; chain.
        after_call (_parse_rule G f tm r (set_mode r _PARSE s'))
          (IHb tm r (set_mode r _PARSE s') Ha); chain.
        all: assert (Hm : R s m) by chain; chain.
      * destruct (Z.of_nat (offset (con s)) =? rs_pos (rules s r))%Z;
          simpl; chain.
        after_call (_parse_rule G f tm r (set_mode r _PARSE s'))
          (IHb tm r (set_mode r _PARSE s') Ha); chain.
        all: assert (Hm : R s m) by chain; chain.
    + (* _parse_rule *)
      intros tm r s Ha. simpl.
      destruct (get_parse_proc G r) as [p |] eqn:Hp.
      * after_call (parse_expr G f tm (get_expr G r) s)
          (IHe tm (get_expr G r) s Ha); chain.
        apply Q_push; [congruence | exact H].
      * apply IHe; exact Ha.
    + (* grow *)
      intros tm r s Ha. simpl.
      set (s0 := set_rpos r (Z.of_nat (offset (con s))) s).
      assert (Hs0 : R s s0) by apply Q_rule.
      after_call (_parse_rule G f tm r s0) (IHb tm r s0 Ha); chain.
      eapply Q_trans; [| apply IHg; exact Ha]. chain.
Qed.

Lemma kept_from_parse_expr (fuel : nat) (tm : entry) (e : _expr) (s : machine) :
  allowed skips tm -> R s (snd (parse_expr G fuel tm e s)).
Proof. intros Ha. apply (kept_from_all fuel); exact Ha. Qed.

Lemma kept_from_parse_rule (fuel : nat) (tm : entry) (r : rule) (s : machine) :
  allowed skips tm -> R s (snd (parse_rule G fuel tm r s)).
Proof. intros Ha. apply (kept_from_all fuel); exact Ha. Qed.

End PreservationFromEntry.

(** ** Positions and ranges stay inside the input *)

Lemma stays_refl (s : machine) : stays_in_input s s.
Proof. unfold stays_in_input. repeat split; auto. Qed.

Lemma stays_trans (s1 s2 s3 : machine) :
  stays_in_input s1 s2 -> stays_in_input s2 s3 -> stays_in_input s1 s3.
Proof.
  intros (I1 & O1 & L1 & B1 & E1 & F1) (I2 & O2 & L2 & B2 & E2 & F2).
  rewrite I1 in E2, F2.
  repeat split; try congruence; try lia; auto.
Qed.

Lemma stays_same_con (s s' : machine) :
  con s' = con s -> stays_in_input s s'.
Proof.
  intros H. unfold stays_in_input, in_bounds, log, error_offset.
  rewrite H. repeat split; auto.
Qed.

(** A step that touches neither the input nor the log, does not move
    the position back, keeps it inside, and leaves the error position
    where it was or at the new position. *)
Lemma stays_with_con (s : machine) (c' : _context) :
  m_input c' = m_input (con s) ->
  m_matches c' = m_matches (con s) ->
  offset (con s) <= offset c' ->
  (in_bounds s -> offset c' <= length (m_input (con s))) ->
  m_error_pos c' = m_error_pos (con s) \/ m_error_pos c' = m_pos c' ->
  stays_in_input s (with_con c' s).
Proof.
  intros Hi Hm Ho Hb He.
  unfold stays_in_input, in_bounds, log, error_offset; simpl.
  rewrite Hi, Hm. repeat split; auto.
  intros B E. destruct He as [-> | ->]; [exact E | apply Hb; exact B].
Qed.

Lemma stays_next_col (s : machine) :
  end_ (con s) = false -> stays_in_input s (with_con (next_col (con s)) s).
Proof.
  intros He. apply stays_with_con; auto.
  - unfold offset; simpl. lia.
  - unfold in_bounds, end_ in *. apply Nat.eqb_neq in He.
    unfold offset in *; simpl. lia.
Qed.

Lemma stays_set_error_pos (s : machine) :
  stays_in_input s (with_con (set_error_pos (con s)) s).
Proof.
  unfold set_error_pos.
  destruct (m_it (m_error_pos (con s)) <? m_it (m_pos (con s)));
    apply stays_with_con; simpl; auto.
Qed.

Lemma stays_matcher (p : _context -> bool * _context) (s : machine) :
  (forall c, p c = (false, set_error_pos c) \/
             (end_ c = false /\ p c = (true, next_col c)) \/
             snd (p c) = c) ->
  stays_in_input s (snd (lift p s)).
Proof.
  intros Hp. unfold lift. destruct (Hp (con s)) as [E | [[He E] | E]].
  - rewrite E. apply stays_set_error_pos.
  - rewrite E. apply stays_next_col. exact He.
  - destruct (p (con s)) as [ok c]. simpl in *. subst c.
    destruct s; apply stays_refl.
Qed.

Lemma stays_string (str : list Z) (s : machine) :
  stays_in_input s (snd (lift (_string_parse str) s)).
Proof.
  revert s. induction str as [| ch str IH]; intros s.
  - unfold lift; simpl. destruct s; apply stays_refl.
  - unfold lift; simpl.
    destruct (end_ (con s)) eqn:He; [apply stays_set_error_pos |].
    destruct (negb (symbol (con s) =? ch)%Z); [apply stays_set_error_pos |].
    specialize (IH (with_con (next_col (con s)) s)).
    unfold lift in IH; simpl in IH.
    destruct (_string_parse str (next_col (con s))) as [ok c'].
    simpl in *. eapply stays_trans; [apply stays_next_col; exact He | exact IH].
Qed.

Lemma stays_restore (s0 s1 : machine) :
  stays_in_input s0 s1 ->
  stays_in_input s0 (with_con (restore (snapshot (con s0)) (con s1)) s1).
Proof.
  intros (I & O & L & B & E & F).
  unfold stays_in_input, in_bounds, log, error_offset in *; simpl.
  rewrite resize_truncates by exact L. rewrite length_firstn.
  repeat split; auto; try lia.
  - rewrite I. auto.
  - intros H0 H1. apply Forall_firstn_of. auto.
Qed.

Lemma stays_push (G : grammar) (s0 s1 : machine) (r : rule) :
  get_parse_proc G r <> None ->
  stays_in_input s0 s1 ->
  stays_in_input s0
    (with_con (push_match (mk_match r (m_pos (con s0)) (m_pos (con s1)))
                          (con s1)) s1).
Proof.
  intros _ (I & O & L & B & E & F).
  unfold stays_in_input, in_bounds, log, error_offset in *; simpl.
  rewrite length_app; simpl.
  repeat split; auto; try lia.
  intros H0 H1. apply Forall_app. split; [auto |].
  constructor; [| constructor].
  unfold in_range; simpl. unfold offset in *.
  specialize (B H0). rewrite I in B. lia.
Qed.

Lemma stays_kept (G : grammar) :
  forall fuel, kept G stays_in_input true fuel.
Proof.
  apply kept_from_all.
  - exact stays_refl.
  - exact stays_trans.
  - intros c s. apply stays_matcher. intros c0. unfold _char_parse.
    destruct (end_ c0); simpl; auto.
    destruct (symbol c0 =? c)%Z; auto.
  - exact stays_string.
  - intros flags s. apply stays_matcher. intros c0. unfold _set_parse.
    destruct (end_ c0); simpl; auto.
    match goal with |- context [if ?b then _ else _] => destruct b end; auto.
  - intros s. apply stays_matcher. intros c0. unfold _any_parse.
    destruct (end_ c0); simpl; auto.
  - intros s. apply stays_matcher. intros c0. auto.
  - intros s. apply stays_with_con; auto.
  - exact stays_restore.
  - intros s0 s1 r. apply stays_push.
  - intros s r v. apply stays_same_con. reflexivity.
  - intros s _. apply stays_same_con. reflexivity.
Qed.

(** X3. Whatever an expression or a rule does and however it leaves,
    the input is the same afterwards, the position is not before the
    position on entry, and an iterator that was between the begin and
    the end of the input still is: no matcher steps over the end. *)
Theorem position_stays_inside_input (G : grammar) (fuel : nat) (tm : entry)
  (s : machine) :
  (forall e,
     m_input (con (snd (parse_expr G fuel tm e s))) = m_input (con s) /\
     offset (con s) <= offset (con (snd (parse_expr G fuel tm e s))) /\
     (in_bounds s -> in_bounds (snd (parse_expr G fuel tm e s)))) /\
  (forall r,
     m_input (con (snd (parse_rule G fuel tm r s))) = m_input (con s) /\
     offset (con s) <= offset (con (snd (parse_rule G fuel tm r s))) /\
     (in_bounds s -> in_bounds (snd (parse_rule G fuel tm r s)))).
Proof.
  assert (Ha : allowed true tm) by (destruct tm; simpl; auto).
  split.
  - intros e.
    destruct (proj1 (stays_kept G fuel) tm e s Ha) as (I & O & _ & B & _).
    auto.
  - intros r.
    destruct (proj1 (proj2 (proj2 (stays_kept G fuel))) tm r s Ha)
      as (I & O & _ & B & _).
    auto.
Qed.

(** ** The log is only extended *)

Lemma resize_app (l added : list _match) : resize (length l) (l ++ added) = l.
Proof.
  unfold resize. rewrite firstn_app, firstn_all, Nat.sub_diag, length_app.
  replace (length l - (length l + length added)) with 0 by lia.
  simpl. rewrite !app_nil_r. reflexivity.
Qed.

Lemma log_extends_kept (G : grammar) :
  forall fuel, kept G log_extends true fuel.
Proof.
  apply kept_all; unfold log_extends, log; simpl.
  - intros s. exists []. rewrite app_nil_r. reflexivity.
  - intros s1 s2 s3 [a1 E1] [a2 E2]. exists (a1 ++ a2).
    rewrite E2, E1, app_assoc. reflexivity.
  - intros s. exists []. rewrite app_nil_r. reflexivity.
  - intros s. exists []. rewrite app_nil_r. reflexivity.
  - intros s. exists [].
    rewrite (proj1 (proj2 (set_error_pos_keeps (con s)))), app_nil_r.
    reflexivity.
  - intros s0 s1 [a E]. exists []. rewrite E, resize_app, app_nil_r.
    reflexivity.
  - intros s r b _. eexists. reflexivity.
  - intros s r v. exists []. rewrite app_nil_r. reflexivity.
  - intros s _. exists []. rewrite app_nil_r. reflexivity.
Qed.

Lemma log_extends_parse_expr (G : grammar) (fuel : nat) (tm : entry)
  (e : _expr) (s : machine) :
  log_extends s (snd (parse_expr G fuel tm e s)).
Proof. apply (log_extends_kept G fuel). destruct tm; simpl; auto. Qed.

Lemma restored_exactly (s s1 : machine) :
  log_extends s s1 ->
  m_pos (con (with_con (restore (snapshot (con s)) (con s1)) s1))
  = m_pos (con s) /\
  log (with_con (restore (snapshot (con s)) (con s1)) s1) = log s.
Proof.
  intros [a E]. unfold log in *; simpl. rewrite E, resize_app. auto.
Qed.

(** X4. A call never removes or changes a record that was in the match
    log when it was entered: however it leaves, the log on exit is the
    log on entry with records appended. *)
Theorem log_is_only_extended (G : grammar) (fuel : nat) (tm : entry)
  (s : machine) :
  (forall e, exists added,
     log (snd (parse_expr G fuel tm e s)) = log s ++ added) /\
  (forall r, exists added,
     log (snd (parse_rule G fuel tm r s)) = log s ++ added).
Proof.
  assert (Ha : allowed true tm) by (destruct tm; simpl; auto).
  split.
  - intros e. exact (proj1 (log_extends_kept G fuel) tm e s Ha).
  - intros r.
    exact (proj1 (proj2 (proj2 (log_extends_kept G fuel))) tm r s Ha).
Qed.

(** X5. The lookaheads consume nothing and log nothing: when [_and] or
    [_not] returns, the position and the whole match log are those of
    the entry, and [_not] returns the negation of what [_and] returns. *)
Theorem lookahead_consumes_nothing (G : grammar) (f : nat) (tm : entry)
  (e : _expr) (s : machine) :
  (forall ok s',
     parse_expr G (S f) tm (_and e) s = (Ret ok, s') ->
     m_pos (con s') = m_pos (con s) /\ log s' = log s /\
     parse_expr G (S f) tm (_not e) s = (Ret (negb ok), s')) /\
  (forall ok s',
     parse_expr G (S f) tm (_not e) s = (Ret ok, s') ->
     m_pos (con s') = m_pos (con s) /\ log s' = log s /\
     parse_expr G (S f) tm (_and e) s = (Ret (negb ok), s')).
Proof.
  pose proof (log_extends_parse_expr G f tm e s) as Hx.
  simpl. destruct (parse_expr G f tm e s) as [[ok1 | r1 |] s1];
    simpl in *; split; intros ok s' H; try discriminate;
    injection H as <- <-;
    destruct (restored_exactly s s1 Hx) as [P L];
    rewrite ?negb_involutive; auto.
Qed.

(** X6. The operators that absorb a failure go back to exactly where
    they started: when the operand of [_optional] returns false the
    optional returns true with the position and the log of its entry,
    and when the left operand of [_choice] returns false the right one
    is evaluated from the position and the log of the entry. *)
Theorem absorbed_failure_is_undone (G : grammar) (f : nat) (tm : entry)
  (e r : _expr) (s s1 : machine) :
  parse_expr G f tm e s = (Ret false, s1) ->
  let back := with_con (restore (snapshot (con s)) (con s1)) s1 in
  m_pos (con back) = m_pos (con s) /\ log back = log s /\
  parse_expr G (S f) tm (_optional e) s = (Ret true, back) /\
  parse_expr G (S f) tm (_choice e r) s = parse_expr G f tm r back.
Proof.
  intros H back.
  pose proof (log_extends_parse_expr G f tm e s) as Hx. rewrite H in Hx.
  destruct (restored_exactly s s1 Hx) as [P L].
  split; [exact P |]. split; [exact L |].
  simpl. rewrite H. split; reflexivity.
Qed.

(** ** Laws of the operators *)

(** X7. [_optional] and [_loop0] never return false, in either mode
    and whatever their operand does. *)
Theorem optional_and_loop0_never_fail (G : grammar) (fuel : nat)
  (tm : entry) (e : _expr) (s : machine) :
  fst (parse_expr G fuel tm (_optional e) s) <> Ret false /\
  fst (parse_expr G fuel tm (_loop0 e) s) <> Ret false.
Proof.
  destruct fuel as [| f]; simpl; [split; discriminate |]. split.
  - destruct (parse_expr G f tm e s) as [[[|] | r1 |] s1]; discriminate.
  - destruct (skip_ws (parse_rule G f) tm s) as [[okw | rw |] s0]; simpl;
      try discriminate.
    destruct (parse_expr G f tm e s0) as [[[|] | r1 |] s1] eqn:E; simpl;
      try discriminate.
    intros H.
    destruct (loop_rest G f tm e s1) as [o s2] eqn:El. simpl in H. subst o.
    exact (loop_rest_not_false _ _ _ _ _ _ El).
Qed.

Lemma loop_rest_is_loop0 (G : grammar) (fuel : nat) (tm : entry)
  (e : _expr) (s : machine) :
  loop_rest G fuel tm e s = parse_expr G fuel tm (_loop0 e) s.
Proof. destruct fuel; reflexivity. Qed.

(** X8. In terminal mode one-or-more is the operand followed by
    zero-or-more of it: [+e] and [e >> *e] give the same result and the
    same machine. *)
Theorem loop1_is_operand_then_loop0 (G : grammar) (f : nat) (e : _expr)
  (s : machine) :
  parse_expr G (S f) TERM (_loop1 e) s
  = parse_expr G (S f) TERM (_seq e (_loop0 e)) s.
Proof.
  simpl. destruct (parse_expr G f TERM e s) as [[[|] | r1 |] s1]; simpl;
    try reflexivity.
  apply loop_rest_is_loop0.
Qed.

Lemma resize_resize (n : nat) (l : list _match) :
  resize n (resize n l) = resize n l.
Proof.
  unfold resize at 1. rewrite length_resize, Nat.sub_diag. simpl.
  rewrite app_nil_r. apply firstn_all2. rewrite length_resize. lia.
Qed.

(** X9. A double negation is a positive lookahead: [!!e] and [&e]
    give the same result and the same machine. *)
Theorem not_not_is_and (G : grammar) (f : nat) (tm : entry) (e : _expr)
  (s : machine) :
  parse_expr G (S (S f)) tm (_not (_not e)) s
  = parse_expr G (S f) tm (_and e) s.
Proof.
  simpl. destruct (parse_expr G f tm e s) as [[ok | r1 |] s1]; simpl;
    try reflexivity.
  rewrite negb_involutive. unfold with_con, restore; simpl.
  rewrite resize_resize. reflexivity.
Qed.

Lemma _string_parse_app (a b : list Z) (c : _context) :
  _string_parse (a ++ b) c
  = (let (ok, c1) := _string_parse a c in
     if ok then _string_parse b c1 else (false, c1)).
Proof.
  revert c. induction a as [| ch a IH]; intros c; simpl.
  - reflexivity.
  - destruct (end_ c); [reflexivity |].
    destruct (negb (symbol c =? ch)%Z); [reflexivity |].
    apply IH.
Qed.

(** X10. A string is the sequence of its characters: in terminal mode
    the string [a ++ b] behaves as the string [a] followed by the
    string [b], also where it fails, and in both modes a string of one
    character behaves as that character. *)
Theorem string_is_sequence_of_characters (G : grammar) (f : nat)
  (s : machine) :
  (forall a b,
     parse_expr G (S (S f)) TERM (_seq (_string a) (_string b)) s
     = parse_expr G (S f) TERM (_string (a ++ b)) s) /\
  (forall tm c,
     parse_expr G (S f) tm (_string [c]) s
     = parse_expr G (S f) tm (_char c) s).
Proof.
  split.
  - intros a b. simpl. unfold lift. rewrite _string_parse_app.
    destruct (_string_parse a (con s)) as [[|] c1]; simpl; reflexivity.
  - intros tm c. simpl. unfold lift, _char_parse.
    destruct (end_ (con s)); simpl; [reflexivity |].
    destruct (symbol (con s) =? c)%Z; reflexivity.
Qed.

Lemma ws_free_modes_agree (G : grammar) (e : _expr) :
  ws_free e = true ->
  forall fuel s, parse_expr G fuel NON_TERM e s = parse_expr G fuel TERM e s.
Proof.
  induction e as [c | cs | flags | e IH | e IH | e IH | e IH | e IH | e IH
                 | e IH | l IHl r IHr | l IHl r IHr | r | | ];
    simpl; intros Hw [| f] s; try discriminate; try reflexivity; simpl.
  - rewrite (IH Hw). reflexivity.
  - rewrite (IH Hw). reflexivity.
  - rewrite (IH Hw). reflexivity.
  - rewrite (IH Hw). reflexivity.
  - apply andb_true_iff in Hw. destruct Hw as [Hl Hr].
    rewrite (IHl Hl).
    destruct (parse_expr G f TERM l s) as [[[|] | r1 |] s1]; simpl;
      try reflexivity.
    apply (IHr Hr).
Qed.

(** X11. Outside sequences, loops and rule references the two modes
    are one: an expression built from the character matchers, [_term],
    [_optional], the lookaheads, [_nl] and [_choice] gives the same
    result and the same machine through [parse_non_term] and through
    [parse_term]. *)
Theorem modes_agree_without_sequencing (G : grammar) (fuel : nat)
  (e : _expr) (s : machine) :
  ws_free e = true ->
  parse_expr G fuel NON_TERM e s = parse_expr G fuel TERM e s.
Proof. intros Hw. apply ws_free_modes_agree. exact Hw. Qed.

(** ** The dispatch of the parse procedures *)

Lemma do_parse_procs_calls (G : grammar) (ms : list _match) :
  forall calls, do_parse_procs G ms = Some calls -> Forall2 (call_of G) ms calls.
Proof.
  induction ms as [| m ms IH]; simpl; intros calls H.
  - injection H as <-. constructor.
  - destruct (get_parse_proc G (m_rule m)) as [p |] eqn:Ep; [| discriminate].
    destruct (do_parse_procs G ms) as [calls' |]; [| discriminate].
    injection H as <-. constructor; [| apply IH; reflexivity].
    unfold call_of; simpl. auto.
Qed.

Lemma do_parse_procs_none (G : grammar) (ms : list _match) :
  do_parse_procs G ms = None <->
  Exists (fun m => get_parse_proc G (m_rule m) = None) ms.
Proof.
  induction ms as [| m ms IH]; simpl.
  - split; [discriminate | intros H; inversion H].
  - destruct (get_parse_proc G (m_rule m)) as [p |] eqn:Ep.
    + destruct (do_parse_procs G ms) as [calls' |].
      * split; [discriminate |]. intros H. inversion H; subst.
        -- congruence.
        -- apply IH in H1. discriminate.
      * split; [| reflexivity]. intros _. right. apply IH. reflexivity.
    + split; [| reflexivity]. intros _. left. exact Ep.
Qed.

(** X12. [do_parse_procs] calls one procedure per record, in the order
    of the log, each with the begin and the end of its record and the
    procedure of the record's rule; it meets a null procedure exactly
    when some record's rule has none. *)
Theorem dispatch_follows_the_log (G : grammar) (ms : list _match) :
  (forall calls,
     do_parse_procs G ms = Some calls ->
     Forall2 (call_of G) ms calls /\ length calls = length ms) /\
  (do_parse_procs G ms = None <->
   Exists (fun m => get_parse_proc G (m_rule m) = None) ms).
Proof.
  split; [| apply do_parse_procs_none].
  intros calls H. pose proof (do_parse_procs_calls G ms calls H) as F.
  split; [exact F |]. symmetry. exact (Forall2_length F).
Qed.

(** ** What the driver reports *)

(** The three calls of the driver, from the fresh context. *)
Lemma driver_stays_in_input (G : grammar) (fuel : nat) (i : list Z)
  (g ws : rule) (rs : rule -> rule_state) :
  let s0 := mk_machine (context_init i ws) rs 0 in
  let s1 := snd (parse_rule G fuel TERM ws s0) in
  let s2 := snd (parse_rule G fuel NON_TERM g s1) in
  let s3 := snd (parse_rule G fuel TERM ws s2) in
  stays_in_input s0 s2 /\ stays_in_input s0 s3.
Proof.
  intros s0 s1 s2 s3.
  assert (H : forall tm r s, stays_in_input s (snd (parse_rule G fuel tm r s))).
  { intros tm r s. apply (stays_kept G fuel). destruct tm; simpl; auto. }
  assert (H2 : stays_in_input s0 s2)
    by (eapply stays_trans; [apply (H TERM ws s0) | apply H]).
  split; [exact H2 |]. eapply stays_trans; [exact H2 | apply H].
Qed.

Lemma fresh_context_facts (i : list Z) (ws : rule) (rs : rule -> rule_state) :
  let s0 := mk_machine (context_init i ws) rs 0 in
  in_bounds s0 /\ error_offset s0 <= length (m_input (con s0)) /\
  Forall (in_range (length (m_input (con s0)))) (log s0) /\
  m_input (con s0) = i.
Proof.
  unfold in_bounds, error_offset, log, offset; simpl.
  repeat split; try lia. constructor.
Qed.

(** [parse] in terms of its three calls. *)
Lemma parse_by_cases (G : grammar) (fuel : nat) (i : list Z)
  (g ws : rule) (el : list error) (rs : rule -> rule_state) :
  let s0 := mk_machine (context_init i ws) rs 0 in
  let r1 := parse_rule G fuel TERM ws s0 in
  let r2 := parse_rule G fuel NON_TERM g (snd r1) in
  let r3 := parse_rule G fuel TERM ws (snd r2) in
  parse G fuel i g ws el rs
  = match fst r1 with
    | Ret _ =>
        match fst r2 with
        | Ret false =>
            if error_offset (snd r2) <? length i
            then Returns false (el ++ [syntax_error_at (con (snd r2))]) None
            else ReadsEnd
        | Ret true =>
            match fst r3 with
            | Ret _ =>
                if end_ (con (snd r3))
                then match do_parse_procs G (log (snd r3)) with
                     | Some calls => Returns true el (Some calls)
                     | None => NullCall
                     end
                else Returns false (el ++ [leftover_error (con (snd r3))]) None
            | Throw r => Uncaught r
            | OutOfFuel => Unfinished
            end
        | Throw r => Uncaught r
        | OutOfFuel => Unfinished
        end
    | Throw r => Uncaught r
    | OutOfFuel => Unfinished
    end.
Proof.
  intros s0 r1 r2 r3. unfold parse. fold s0.
  assert (I2 : m_input (con (snd r2)) = i).
  { subst r2. rewrite input_kept_parse_rule. subst r1.
    rewrite input_kept_parse_rule. reflexivity. }
  assert (I3 : m_input (con (snd r3)) = i).
  { subst r3. rewrite input_kept_parse_rule. exact I2. }
  subst r3 r2 r1.
  destruct (parse_rule G fuel TERM ws s0) as [[ok1 | |] s1];
    try reflexivity. cbn [fst snd] in *.
  destruct (parse_rule G fuel NON_TERM g s1) as [[[|] | |] s2];
    try reflexivity; cbn [fst snd] in *.
  - destruct (parse_rule G fuel TERM ws s2) as [[ok3 | |] s3];
      try reflexivity. cbn [fst snd] in *.
    unfold leftover_error, _syntax_error, syntax_error_at, log.
    rewrite I3.
    destruct (end_ (con s3)); cbn [negb]; [reflexivity |].
    destruct (m_it (m_error_pos (con s3)) <? length i); reflexivity.
  - unfold _syntax_error, syntax_error_at, error_offset. rewrite I2.
    destruct (m_it (m_error_pos (con s2)) <? length i); reflexivity.
Qed.

(** The positions of the contexts the driver reports from. *)
Lemma driver_offsets (G : grammar) (fuel : nat) (i : list Z)
  (g ws : rule) (rs : rule -> rule_state) :
  let s0 := mk_machine (context_init i ws) rs 0 in
  let s1 := snd (parse_rule G fuel TERM ws s0) in
  let s2 := snd (parse_rule G fuel NON_TERM g s1) in
  let s3 := snd (parse_rule G fuel TERM ws s2) in
  error_offset s2 <= length i /\ error_offset s3 <= length i /\
  offset (con s3) <= length i /\ m_input (con s3) = i.
Proof.
  intros s0 s1 s2 s3.
  destruct (driver_stays_in_input G fuel i g ws rs) as [S2 S3].
  destruct (fresh_context_facts i ws rs) as (B0 & E0 & _ & I0).
  destruct S2 as (_ & _ & _ & _ & E2 & _). specialize (E2 B0 E0).
  destruct S3 as (I3 & _ & _ & B3 & E3 & _).
  specialize (E3 B0 E0). specialize (B3 B0).
  fold s0 s1 s2 s3 in B3. unfold in_bounds in B3.
  rewrite I0 in *. fold s0 s1 s2 s3 in I3. rewrite I3 in B3.
  repeat split; assumption.
Qed.

(** The ways [parse] returns, in terms of its three calls. *)
Lemma parse_returns_cases (G : grammar) (fuel : nat) (i : list Z)
  (g ws : rule) (el el' : list error) (rs : rule -> rule_state)
  (ok : bool) (d : option (list proc_call)) :
  let s0 := mk_machine (context_init i ws) rs 0 in
  let s1 := snd (parse_rule G fuel TERM ws s0) in
  let r2 := parse_rule G fuel NON_TERM g s1 in
  let s3 := snd (parse_rule G fuel TERM ws (snd r2)) in
  parse G fuel i g ws el rs = Returns ok el' d ->
  (ok = true /\ el' = el /\ fst r2 = Ret true /\ end_ (con s3) = true /\
   exists calls, d = Some calls /\ do_parse_procs G (log s3) = Some calls) \/
  (ok = false /\ d = None /\ fst r2 = Ret false /\
   error_offset (snd r2) < length i /\
   el' = el ++ [syntax_error_at (con (snd r2))]) \/
  (ok = false /\ d = None /\ fst r2 = Ret true /\ end_ (con s3) = false /\
   el' = el ++ [leftover_error (con s3)]).
Proof.
  intros s0 s1 r2 s3. rewrite parse_by_cases. fold s0 s1 r2. fold s3.
  destruct (fst (parse_rule G fuel TERM ws s0)); try discriminate.
  destruct (fst r2) as [[|] | |]; try discriminate.
  - destruct (fst (parse_rule G fuel TERM ws (snd r2))); try discriminate.
    destruct (end_ (con s3)).
    + destruct (do_parse_procs G (log s3)) as [calls |]; [| discriminate].
      intros H. injection H as <- <- <-. left.
      repeat split. exists calls. split; reflexivity.
    + intros H. injection H as <- <- <-. right. right. repeat split.
  - destruct (error_offset (snd r2) <? length i) eqn:E; [| discriminate].
    apply Nat.ltb_lt in E.
    intros H. injection H as <- <- <-. right. left. repeat split. exact E.
Qed.

(** C7, with the case in which the code departs from it. [r1] is the
    call of the whitespace rule at the start, [r2] the call of the
    grammar rule and [r3] the call of the whitespace rule after it.
    The furthest error position is never beyond the end of the input.
    If the grammar rule returns false with the furthest error position
    at the end of the input, [_syntax_error] reads the symbol at
    [m_end] and [parse] does not return as the specification says; this is so
    for every grammar on the empty input, and the calculator grammar
    does it there. In the other cases the specification holds: if the grammar
    rule returns false with the furthest error position before the end,
    [parse] returns false and appends one SYNTAX error at that
    position; if the grammar rule returns true and the input is not at
    its end after the trailing whitespace, [parse] returns false and
    appends one error, SYNTAX when the furthest error position is
    before the end and INVALID_EOF otherwise; no parse procedure runs
    in these cases. [parse] returns true only when the grammar rule
    returned true and the end was reached, and then it appends no error
    and has run [do_parse_procs] over the log; a false return always
    appends exactly one error. *)
Theorem grammar_failure_at_end_reads_outside_input (G : grammar)
  (fuel : nat) (i : list Z) (g ws : rule) (el : list error)
  (rs : rule -> rule_state) :
  let s0 := mk_machine (context_init i ws) rs 0 in
  let r1 := parse_rule G fuel TERM ws s0 in
  let r2 := parse_rule G fuel NON_TERM g (snd r1) in
  let r3 := parse_rule G fuel TERM ws (snd r2) in
  let s3 := snd r3 in
  error_offset (snd r2) <= length i /\
  (returned r1 -> fst r2 = Ret false ->
   error_offset (snd r2) = length i ->
   parse G fuel i g ws el rs = ReadsEnd) /\
  (returned r1 -> fst r2 = Ret false -> i = [] ->
   parse G fuel i g ws el rs = ReadsEnd) /\
  parse G_calc (30 + fuel) [] 1 0 el fresh_rules = ReadsEnd /\
  (returned r1 -> fst r2 = Ret false ->
   error_offset (snd r2) < length i ->
   parse G fuel i g ws el rs
   = Returns false (el ++ [syntax_error_at (con (snd r2))]) None) /\
  (returned r1 -> fst r2 = Ret true -> returned r3 ->
   end_ (con s3) = false ->
   parse G fuel i g ws el rs
   = Returns false (el ++ [leftover_error (con s3)]) None /\
   m_type (leftover_error (con s3))
   = if error_offset s3 <? length i
     then ERROR_SYNTAX_ERROR else ERROR_INVALID_EOF) /\
  (forall el' d,
   parse G fuel i g ws el rs = Returns true el' d ->
   fst r2 = Ret true /\ end_ (con s3) = true /\ el' = el /\
   exists calls, d = Some calls /\ do_parse_procs G (log s3) = Some calls) /\
  (forall el' d,
   parse G fuel i g ws el rs = Returns false el' d ->
   d = None /\ exists e, el' = el ++ [e]).
Proof.
  intros s0 r1 r2 r3 s3.
  destruct (driver_offsets G fuel i g ws rs) as (E2 & E3 & _ & I3).
  fold s0 r1 r2 r3 s3 in E2, E3, I3.
  assert (Hend : returned r1 -> fst r2 = Ret false ->
                 error_offset (snd r2) = length i ->
                 parse G fuel i g ws el rs = ReadsEnd).
  { intros [ok1 H1] H2 He. rewrite parse_by_cases.
    fold s0 r1 r2. rewrite H1, H2, He, Nat.ltb_irrefl. reflexivity. }
  split; [exact E2 |]. split; [exact Hend |].
  split; [| split; [| split; [| split; [| split]]]].
  - intros H1 H2 ->. apply Hend; [exact H1 | exact H2 |].
    simpl in *. lia.
  - rewrite (parse_enough_fuel G_calc 30 (30 + fuel));
      [reflexivity | lia | vm_compute; discriminate].
  - intros [ok1 H1] H2 He. rewrite parse_by_cases. fold s0 r1 r2.
    rewrite H1, H2. apply Nat.ltb_lt in He. rewrite He. reflexivity.
  - intros [ok1 H1] H2 [ok3 H3] He. rewrite parse_by_cases.
    fold s0 r1 r2 r3 s3. rewrite H1, H2, H3, He. split; [reflexivity |].
    rewrite leftover_error_type, I3. reflexivity.
  - intros el' d H.
    destruct (parse_returns_cases G fuel i g ws el el' rs _ _ H)
      as [(_ & -> & H2 & He & C) | [(E & _) | (E & _)]];
      try discriminate.
    repeat split; assumption.
  - intros el' d H.
    destruct (parse_returns_cases G fuel i g ws el el' rs _ _ H)
      as [(E & _) | [(_ & -> & _ & _ & ->) | (_ & -> & _ & _ & ->)]];
      try discriminate; (split; [reflexivity | eexists; reflexivity]).
Qed.

(** X13. Every parse procedure that [parse] calls gets a range of the
    input: its begin is not after its end and its end is not after the
    end of the input. *)
Theorem parse_calls_procs_on_input_ranges (G : grammar) (fuel : nat)
  (i : list Z) (g ws : rule) (el el' : list error) (rs : rule -> rule_state)
  (calls : list proc_call) :
  parse G fuel i g ws el rs = Returns true el' (Some calls) ->
  Forall (fun c => m_it (pc_begin c) <= m_it (pc_end c) /\
                   m_it (pc_end c) <= length i) calls.
Proof.
  intros H.
  destruct (parse_returns_cases G fuel i g ws el el' rs _ _ H)
    as [(_ & _ & _ & _ & calls' & E & D) | [(E & _) | (E & _)]];
    try discriminate.
  injection E as <-.
  destruct (driver_stays_in_input G fuel i g ws rs) as [_ S3].
  destruct (fresh_context_facts i ws rs) as (B0 & E0 & F0 & I0).
  destruct S3 as (_ & _ & _ & _ & _ & F). specialize (F B0 F0).
  rewrite I0 in F.
  pose proof (do_parse_procs_calls G _ _ D) as F2.
  clear - F F2. induction F2 as [| m c ms cs Hc _ IH]; constructor.
  - inversion F; subst. destruct Hc as (_ & -> & ->). assumption.
  - apply IH. inversion F; assumption.
Qed.



(** ** Snapshots *)

Lemma resize_length (l : list _match) : resize (length l) l = l.
Proof.
  unfold resize. rewrite firstn_all, Nat.sub_diag. simpl. apply app_nil_r.
Qed.

(** X16. Restoring a snapshot of the current context changes nothing,
    and restoring the same snapshot twice is restoring it once; in any
    case [restore] leaves the input, the whitespace rule and the error
    position alone and sets the length of the log to the one of the
    snapshot. *)
Theorem snapshot_restore_round_trip (c : _context) (st : _state) :
  restore (snapshot c) c = c /\
  restore st (restore st c) = restore st c /\
  m_input (restore st c) = m_input c /\
  m_ws (restore st c) = m_ws c /\
  m_error_pos (restore st c) = m_error_pos c /\
  m_pos (restore st c) = st_pos st /\
  length (m_matches (restore st c)) = st_matches st.
Proof.
  unfold restore, snapshot; simpl.
  rewrite resize_length, resize_resize, length_resize.
  destruct c; repeat split.
Qed.

(** ** The single symbol matchers *)

(** X17. [_char] returns true exactly when the input is not at its end
    and the current symbol is the character, [_any] exactly when the
    input is not at its end, [_eof] exactly when it is. On true,
    [_char] and [_any] advance by one column and leave the error
    position; on false they leave the position and the recorded error
    position becomes the larger of itself and the position. [_eof]
    changes nothing. None of them touches the log. *)
Theorem single_symbol_matchers (c : Z) (ctx : _context) :
  (fst (_char_parse c ctx) = true <-> end_ ctx = false /\ symbol ctx = c) /\
  (fst (_any_parse ctx) = true <-> end_ ctx = false) /\
  _eof_parse ctx = (end_ ctx, ctx) /\
  (forall p, p = _char_parse c \/ p = _any_parse ->
     (fst (p ctx) = true -> snd (p ctx) = next_col ctx) /\
     (fst (p ctx) = false ->
        m_pos (snd (p ctx)) = m_pos ctx /\
        m_matches (snd (p ctx)) = m_matches ctx /\
        m_it (m_error_pos (snd (p ctx)))
        = Nat.max (m_it (m_error_pos ctx)) (m_it (m_pos ctx)))).
Proof.
  assert (Hmax : m_pos (set_error_pos ctx) = m_pos ctx /\
                 m_matches (set_error_pos ctx) = m_matches ctx /\
                 m_it (m_error_pos (set_error_pos ctx))
                 = Nat.max (m_it (m_error_pos ctx)) (m_it (m_pos ctx))).
  { destruct (set_error_pos_cases ctx) as [[Hlt E] | [Hle E]].
    - destruct (set_error_pos_keeps ctx) as (P & M & _).
      rewrite P, M, E. repeat split. lia.
    - rewrite E. repeat split. lia. }
  unfold _char_parse, _any_parse, _eof_parse.
  split; [| split; [| split; [reflexivity |]]].
  - destruct (end_ ctx); simpl; [intuition discriminate |].
    destruct (symbol ctx =? c)%Z eqn:E; simpl.
    + apply Z.eqb_eq in E. tauto.
    + apply Z.eqb_neq in E. intuition discriminate.
  - destruct (end_ ctx); simpl; intuition discriminate.
  - intros p [-> | ->].
    + destruct (negb (end_ ctx) && (symbol ctx =? c)%Z); simpl;
        split; intros H; try discriminate; auto.
    + destruct (negb (end_ ctx)); simpl;
        split; intros H; try discriminate; auto.
Qed.

(** ** A rule entered at a new position *)

(** X18. A rule in PARSE mode that is entered away from its recorded
    position and whose body returns: the call returns what the body
    returned, with the state of the rule as on entry; when the rule has
    a parse procedure and the body returned true, one record is added
    at the end of the log, from the position on entry to the position
    on return. *)
Theorem rule_call_logs_its_range (G : grammar) (f : nat) (tm : entry)
  (r : rule) (s s1 : machine) (ok : bool) :
  rs_mode (rules s r) = _PARSE ->
  Z.of_nat (offset (con s)) <> rs_pos (rules s r) ->
  parse_expr G f tm (get_expr G r)
    (set_rpos r (Z.of_nat (offset (con s))) s) = (Ret ok, s1) ->
  fst (parse_rule G (S (S f)) tm r s) = Ret ok /\
  rules (snd (parse_rule G (S (S f)) tm r s)) r = rules s r /\
  m_pos (con (snd (parse_rule G (S (S f)) tm r s))) = m_pos (con s1) /\
  log (snd (parse_rule G (S (S f)) tm r s))
  = match get_parse_proc G r with
    | Some _ =>
        if ok
        then log s1 ++ [mk_match r (m_pos (con s)) (m_pos (con s1))]
        else log s1
    | None => log s1
    end.
Proof.
  intros Hm Hp Hb.
  rewrite parse_rule_parse_new by assumption.
  cbn [_parse_rule].
  destruct (get_parse_proc G r) as [p |]; rewrite Hb.
  - destruct ok; simpl; rewrite Nat.eqb_refl; repeat split.
  - simpl. rewrite Nat.eqb_refl. repeat split.
Qed.

(** ** The non-local exit *)

(** X19. A rule entered in PARSE mode at its recorded position, the
    left-recursive entry, never returns true: it returns false when the
    seed fails, and a success leaves by [_lr_ok]. A rule entered in
    PARSE mode at a new position never lets its own [_lr_ok] out: it
    turns it into a return of true. *)
Theorem left_recursion_ends_by_the_signal (G : grammar) (fuel : nat)
  (tm : entry) (r : rule) (s : machine) :
  rs_mode (rules s r) = _PARSE ->
  (Z.of_nat (offset (con s)) = rs_pos (rules s r) ->
   fst (parse_rule G fuel tm r s) <> Ret true) /\
  (Z.of_nat (offset (con s)) <> rs_pos (rules s r) ->
   fst (parse_rule G fuel tm r s) <> Throw r).
Proof.
  intros Hm. destruct fuel as [| f]; [split; intros; discriminate |].
  split; intros Hp.
  - rewrite parse_rule_parse_lr by assumption.
    destruct (_parse_rule G f tm r _) as [[[|] | r1 |] s1]; try discriminate.
    destruct (grow G f tm r _) as [[ok2 | r2 |] s2]; discriminate.
  - rewrite parse_rule_parse_new by assumption.
    destruct (_parse_rule G f tm r _) as [[ok1 | r1 |] s1]; try discriminate.
    destruct (r1 =? r) eqn:E; [discriminate |].
    apply Nat.eqb_neq in E. simpl. congruence.
Qed.

(** ** Rule state is scoped to the outermost call *)

Section Scoped.

Variable G : grammar.

Ltac enter K :=
  let IHe := fresh in let IHl := fresh in let IHr := fresh in
  let IHb := fresh in let IHg := fresh in
  pose proof K as (IHe & IHl & IHr & IHb & IHg);
  match goal with
  | Hs : settled ?R |- _ =>
      match R with
      | context [?X G ?f ?a ?b ?c] =>
          let Hk := fresh "Hk" in
          first [ pose proof (IHe a b c) as Hk;
                  match type of Hk with context [X G f a b c] => idtac end
                | pose proof (IHl a b c) as Hk;
                  match type of Hk with context [X G f a b c] => idtac end
                | pose proof (IHr a b c) as Hk;
                  match type of Hk with context [X G f a b c] => idtac end
                | pose proof (IHb a b c) as Hk;
                  match type of Hk with context [X G f a b c] => idtac end
                | pose proof (IHg a b c) as Hk;
                  match type of Hk with context [X G f a b c] => idtac end ];
          destruct (X G f a b c) as [[[|] | ? | ] ?];
          simpl in Hs, Hk |- *;
          try (exfalso; apply Hs; reflexivity);
          specialize (Hk ltac:(discriminate))
      end
  end;
  clear IHe IHl IHr IHb IHg.

Ltac walk HB :=
  repeat (simpl; first
    [ exact HB
    | match goal with
      | Hk : fresh_kept ?a ?x |- rules ?x _ = _ => apply Hk
      | Hk : forall b, b <> _ -> _ -> rules ?x b = _ |- rules ?x _ = _ =>
          apply Hk; [assumption |]
      | Hbr : (?b =? ?r) = false |- context [?b =? ?r] => rewrite Hbr
      | Hbr : (?b =? ?r) = true |- context [?b =? ?r] => rewrite Hbr
      end ]).

Lemma scoped_all : forall f, scoped G f.
Proof.
  induction f as [| f K].
  - repeat split; intros ? ? ? Hs; exfalso; apply Hs; reflexivity.
  - split; [| split; [| split; [| split]]];
      [intros tm x s Hs b HB .. | intros tm x s Hs b Hne HB].
    + destruct x; destruct tm; simpl in Hs |- *;
        try (unfold lift;
             match goal with |- context [let (_, _) := ?p in _] =>
               destruct p end; exact HB);
        repeat enter K; walk HB.
    + destruct tm; simpl in Hs |- *; repeat enter K; walk HB.
    + simpl in Hs |- *. rewrite Nat.eqb_refl in Hs |- *. simpl in Hs |- *.
      assert (Hinit : (b =? x) = true ->
                rs_mode (rules s x) = _PARSE /\
                (Z.of_nat (offset (con s)) =? rs_pos (rules s x))%Z = false).
      { intros E. apply Nat.eqb_eq in E. subst b. rewrite HB. simpl.
        split; [reflexivity |]. apply Z.eqb_neq. lia. }
      destruct (b =? x) eqn:Hbr.
      * destruct (Hinit eq_refl) as [Em El]. rewrite Em, El in Hs |- *.
        apply Nat.eqb_eq in Hbr. subst b.
        destruct (_parse_rule G f tm x _) as [[ok1 | r1 |] s1]; simpl in *.
        -- rewrite Nat.eqb_refl. exact HB.
        -- destruct (r1 =? x); simpl; rewrite Nat.eqb_refl; exact HB.
        -- exfalso; apply Hs; reflexivity.
      * clear Hinit.
        assert (Hne : b <> x) by (apply Nat.eqb_neq; exact Hbr).
        destruct (rs_mode (rules s x));
          destruct (Z.of_nat (offset (con s)) =? rs_pos (rules s x))%Z;
          simpl in Hs |- *; repeat enter K; walk HB.
        match goal with |- context [if ?t =? x then _ else _] =>
          destruct (t =? x) end; simpl; walk HB.
    + simpl in Hs |- *. destruct (get_parse_proc G x);
        repeat enter K; walk HB.
    + assert (Hbr : (b =? x) = false) by (apply Nat.eqb_neq; exact Hne).
      simpl in Hs |- *. repeat enter K; walk HB.
Qed.
End Scoped.

(** X20. Rule state does not outlive the calls: when an expression or
    a rule returns or leaves by [_lr_ok], every rule that was in its
    initial state on entry is in its initial state again, whatever
    happened to it in between. So when [parse] returns on rule objects
    in their initial state, the rules are in their initial state after
    the grammar rule, and after the trailing whitespace when that call
    came back. *)
Theorem rule_state_is_scoped (G : grammar) (fuel : nat) :
  (forall tm e s b,
     settled (parse_expr G fuel tm e s) ->
     rules s b = rule_state_init ->
     rules (snd (parse_expr G fuel tm e s)) b = rule_state_init) /\
  (forall tm r s b,
     settled (parse_rule G fuel tm r s) ->
     rules s b = rule_state_init ->
     rules (snd (parse_rule G fuel tm r s)) b = rule_state_init) /\
  (forall i g ws el ok el' d b,
     parse G fuel i g ws el fresh_rules = Returns ok el' d ->
     let s0 := mk_machine (context_init i ws) fresh_rules 0 in
     let s1 := snd (parse_rule G fuel TERM ws s0) in
     let s2 := snd (parse_rule G fuel NON_TERM g s1) in
     let s3 := snd (parse_rule G fuel TERM ws s2) in
     rules s2 b = rule_state_init /\
     (settled (parse_rule G fuel TERM ws s2) -> rules s3 b = rule_state_init)).
Proof.
  destruct (scoped_all G fuel) as (He & _ & Hr & _).
  split; [| split].
  - intros tm e s b Hs. apply He. exact Hs.
  - intros tm r s b Hs. apply Hr. exact Hs.
  - intros i g ws el ok el' d b H s0 s1 s2 s3.
    assert (H1 : settled (parse_rule G fuel TERM ws s0) /\
                 settled (parse_rule G fuel NON_TERM g s1)).
    { unfold parse in H. fold s0 in H. subst s3 s2 s1. unfold settled.
      destruct (parse_rule G fuel TERM ws s0) as [[ok1 | |] s1];
        try discriminate. simpl in *.
      destruct (parse_rule G fuel NON_TERM g s1) as [[ok2 | |] s2];
        try discriminate; try (destruct ok2; discriminate).
      simpl. split; discriminate. }
    destruct H1 as [H1 H2].
    assert (F1 : rules s1 b = rule_state_init)
      by (apply (Hr TERM ws s0 H1); reflexivity).
    assert (F2 : rules s2 b = rule_state_init)
      by (apply (Hr NON_TERM g s1 H2); exact F1).
    split; [exact F2 |]. intros H3. apply (Hr TERM ws s2 H3). exact F2.
Qed.

(** ** Registration of parse procedures *)

(** X21. A parse procedure reaches the rule object whichever comes
    first: after [set_parse_proc] on a rule and the construction of
    that rule, in either order, the rule holds the procedure.
    Registering one rule changes what no other rule looks up, a rule
    constructed before any registration holds the null procedure, and
    a null procedure is refused by the assertion. *)
Theorem registration_reaches_the_rule (w : registry) (r : rule) (p : nat) :
  (exists w1,
     set_parse_proc r (Some p) w = Some w1 /\
     m_parse_proc (rule_construct r w1) r = Some p /\
     m_parse_proc w1 r = Some p /\
     _get_parse_proc w1 r = Some p /\
     forall r', r' <> r ->
       _get_parse_proc w1 r' = _get_parse_proc w r' /\
       m_parse_proc w1 r' = m_parse_proc w r') /\
  (exists w2,
     set_parse_proc r (Some p) (rule_construct r w) = Some w2 /\
     m_parse_proc w2 r = Some p) /\
  (_parse_proc_map w = None -> m_parse_proc (rule_construct r w) r = None) /\
  set_parse_proc r None w = None.
Proof.
  unfold set_parse_proc, rule_construct, _get_parse_proc.
  split; [| split; [| split]].
  - eexists. split; [reflexivity |]. simpl. rewrite Nat.eqb_refl.
    repeat split; intros; apply Nat.eqb_neq in H; rewrite H;
      destruct (_parse_proc_map w); reflexivity.
  - eexists. split; [reflexivity |]. simpl. rewrite Nat.eqb_refl.
    reflexivity.
  - intros H. simpl. rewrite H, Nat.eqb_refl. reflexivity.
  - reflexivity.
Qed.

(** X22. Whenever a call of a rule returns, true or false, the state
    of that rule, mode and recorded position, is the one it had on
    entry, whatever it was and whatever the call did to it. *)
Theorem own_state_restored_on_return (G : grammar) (fuel : nat)
  (tm : entry) (r : rule) (s s' : machine) (ok : bool) :
  parse_rule G fuel tm r s = (Ret ok, s') ->
  rs_mode (rules s' r) = rs_mode (rules s r) /\
  rs_pos (rules s' r) = rs_pos (rules s r).
Proof.
  intros H. rewrite (parse_rule_return_restores G fuel tm r s s' ok H).
  split; reflexivity.
Qed.

(** ** Lines and columns *)

Lemma counters_same_con (s s' : machine) :
  con s' = con s -> counters_kept s s'.
Proof.
  intros H. unfold counters_kept, log. rewrite H. intuition.
Qed.

Lemma counters_trans (s1 s2 s3 : machine) :
  counters_kept s1 s2 -> counters_kept s2 s3 -> counters_kept s1 s3.
Proof.
  intros (L1 & N1 & P1 & E1 & F1) (L2 & N2 & P2 & E2 & F2).
  unfold counters_kept. intuition lia.
Qed.

Lemma counters_with_con (s : machine) (c' : _context) :
  m_matches c' = m_matches (con s) ->
  m_line (m_pos (con s)) <= m_line (m_pos c') ->
  (one_based (m_pos (con s)) -> one_based (m_pos c')) ->
  m_error_pos c' = m_error_pos (con s) \/ m_error_pos c' = m_pos c' ->
  counters_kept s (with_con c' s).
Proof.
  intros Hm Hl Hp He. unfold counters_kept, log; simpl.
  rewrite Hm. destruct He as [-> | ->]; intuition.
Qed.

Lemma counters_next_col (s : machine) :
  counters_kept s (with_con (next_col (con s)) s).
Proof.
  apply counters_with_con; simpl; auto.
  unfold one_based; simpl. intros [A B]. split; lia.
Qed.

Lemma counters_next_line (s : machine) :
  counters_kept s (with_con (next_line (con s)) s).
Proof.
  apply counters_with_con; simpl; auto.
  unfold one_based; simpl. intros [A B]. split; lia.
Qed.

Lemma counters_set_error_pos (s : machine) :
  counters_kept s (with_con (set_error_pos (con s)) s).
Proof.
  unfold set_error_pos.
  destruct (m_it (m_error_pos (con s)) <? m_it (m_pos (con s)));
    apply counters_with_con; simpl; auto.
Qed.

Lemma counters_matcher (p : _context -> bool * _context) (s : machine) :
  (forall c, snd (p c) = set_error_pos c \/ snd (p c) = next_col c \/
             snd (p c) = c) ->
  counters_kept s (snd (lift p s)).
Proof.
  intros Hp. unfold lift. specialize (Hp (con s)).
  destruct (p (con s)) as [ok c]. simpl in *.
  destruct Hp as [-> | [-> | ->]].
  - apply counters_set_error_pos.
  - apply counters_next_col.
  - apply counters_same_con. reflexivity.
Qed.

Lemma counters_string (str : list Z) (s : machine) :
  counters_kept s (snd (lift (_string_parse str) s)).
Proof.
  revert s. induction str as [| ch str IH]; intros s.
  - unfold lift; simpl. apply counters_same_con. reflexivity.
  - unfold lift; simpl.
    destruct (end_ (con s)); [apply counters_set_error_pos |].
    destruct (negb (symbol (con s) =? ch)%Z); [apply counters_set_error_pos |].
    specialize (IH (with_con (next_col (con s)) s)).
    unfold lift in IH; simpl in IH.
    destruct (_string_parse str (next_col (con s))) as [ok c'].
    simpl in *. eapply counters_trans; [apply counters_next_col | exact IH].
Qed.

Lemma counters_restore (s0 s1 : machine) :
  counters_kept s0 s1 ->
  counters_kept s0 (with_con (restore (snapshot (con s0)) (con s1)) s1).
Proof.
  intros (L & N & P & E & F). unfold counters_kept, log in *; simpl.
  rewrite resize_truncates by exact N. rewrite length_firstn.
  split; [| split; [| split; [| split]]]; auto; try lia.
  intros H0 H1. apply Forall_firstn_of. auto.
Qed.

Lemma counters_push (G : grammar) (s0 s1 : machine) (r : rule) :
  get_parse_proc G r <> None ->
  counters_kept s0 s1 ->
  counters_kept s0
    (with_con (push_match (mk_match r (m_pos (con s0)) (m_pos (con s1)))
                          (con s1)) s1).
Proof.
  intros _ (L & N & P & E & F). unfold counters_kept, log in *; simpl.
  rewrite length_app; simpl.
  split; [| split; [| split; [| split]]]; auto; try lia.
  intros H0 H1. apply Forall_app. split; [auto |].
  constructor; [| constructor]. unfold counted; simpl. auto.
Qed.

Lemma counters_kept_all (G : grammar) :
  forall fuel, kept G counters_kept true fuel.
Proof.
  apply kept_from_all.
  - intros s. apply counters_same_con. reflexivity.
  - exact counters_trans.
  - intros c s. apply counters_matcher. intros c0. unfold _char_parse.
    destruct (negb (end_ c0) && (symbol c0 =? c)%Z); auto.
  - exact counters_string.
  - intros flags s. apply counters_matcher. intros c0. unfold _set_parse.
    match goal with |- context [if ?b then _ else _] => destruct b end; auto.
  - intros s. apply counters_matcher. intros c0. unfold _any_parse.
    destruct (negb (end_ c0)); auto.
  - intros s. apply counters_matcher. intros c0. auto.
  - exact counters_next_line.
  - exact counters_restore.
  - intros s0 s1 r. apply counters_push.
  - intros s r v. apply counters_same_con. reflexivity.
  - intros s _. apply counters_same_con. reflexivity.
Qed.

(** X23. Lines and columns are counted from 1 throughout: across any
    call the line does not go back and a position counted from 1 stays
    so, and every position that [parse] hands out, the begin and the
    end of the error of a false return and of the range of every
    procedure call of a true return, has a line and a column of at
    least 1, the end of a range being on no earlier line than its
    begin. *)
Theorem reported_positions_are_one_based (G : grammar) (fuel : nat) :
  (forall tm r s,
     m_line (m_pos (con s))
     <= m_line (m_pos (con (snd (parse_rule G fuel tm r s)))) /\
     (one_based (m_pos (con s)) ->
      one_based (m_pos (con (snd (parse_rule G fuel tm r s)))))) /\
  (forall i g ws el rs ok el' d,
     parse G fuel i g ws el rs = Returns ok el' d ->
     (forall calls, d = Some calls ->
        Forall (fun c => one_based (pc_begin c) /\ one_based (pc_end c) /\
                         m_line (pc_begin c) <= m_line (pc_end c)) calls) /\
     (ok = false ->
      exists e, el' = el ++ [e] /\
        one_based (err_begin e) /\ one_based (err_end e))).
Proof.
  assert (Hr : forall tm r s,
             counters_kept s (snd (parse_rule G fuel tm r s))).
  { intros tm r s. apply (counters_kept_all G fuel). destruct tm; simpl; auto. }
  split.
  - intros tm r s. destruct (Hr tm r s) as (L & _ & P & _). auto.
  - intros i g ws el rs ok el' d H.
    set (s0 := mk_machine (context_init i ws) rs 0).
    set (s1 := snd (parse_rule G fuel TERM ws s0)).
    set (s2 := snd (parse_rule G fuel NON_TERM g s1)).
    set (s3 := snd (parse_rule G fuel TERM ws s2)).
    assert (B : one_based pos_begin) by (unfold one_based; simpl; lia).
    assert (K2 : counters_kept s0 s2)
      by (eapply counters_trans; [apply (Hr TERM ws s0) | apply Hr]).
    assert (K3 : counters_kept s0 s3)
      by (eapply counters_trans; [exact K2 | apply Hr]).
    destruct K2 as (_ & _ & _ & E2 & _). specialize (E2 B B).
    destruct K3 as (_ & _ & _ & E3 & F3). specialize (E3 B B).
    specialize (F3 B (Forall_nil _)).
    assert (Hn : forall p, one_based p -> one_based (_next_pos p))
      by (unfold one_based; simpl; intros p [A C]; split; lia).
    destruct (parse_returns_cases G fuel i g ws el el' rs _ _ H)
      as [(-> & _ & _ & _ & calls & -> & D)
         | [(-> & -> & _ & _ & ->) | (-> & -> & _ & _ & ->)]];
      try (fold s0 s1 s2 s3 in D); fold s0 s1 s2 s3.
    + split; [| discriminate]. intros calls' Hc. injection Hc as <-.
      pose proof (do_parse_procs_calls G _ _ D) as F2.
      clear - F3 F2. induction F2 as [| m c ms cs Hc _ IH]; constructor.
      * inversion F3; subst. destruct Hc as (_ & -> & ->). assumption.
      * apply IH. inversion F3; assumption.
    + split; [discriminate |]. intros _. eexists. split; [reflexivity |].
      simpl. split; [exact E2 | apply Hn; exact E2].
    + split; [discriminate |]. intros _. eexists. split; [reflexivity |].
      unfold leftover_error.
      destruct (m_it (m_error_pos (con s3)) <? length (m_input (con s3)));
        simpl; split; auto.
Qed.

(** ** Concrete runs of the further properties *)

(** [range('0', '9')] is the set of the digits. *)
Example digits_is_a_range :
  _set_of_range (mk_int 48 eq_refl) (mk_int 57 eq_refl)
  = Built (repeat false 48 ++ repeat true 10).
Proof. reflexivity. Qed.

(** A set from a string of letters, and from strings with a byte above
    127 under a signed and under an unsigned [char]. *)
Example sets_of_strings :
  _set_of_string true "ba"%string
  = Built (repeat false 97 ++ [true; true]) /\
  _set_of_string true (String "a" (String "233" EmptyString)) = LengthError /\
  _set_of_string true (String "a" (String "255" EmptyString)) = Undefined /\
  _set_of_string false (String "233" EmptyString)
  = Built (repeat false 233 ++ [true]).
Proof. repeat split. Qed.

(** [range(0, INT_MAX)] passes the assertions and overflows. *)
Example range_up_to_int_max :
  _set_of_range (mk_int 0 eq_refl) (mk_int INT_MAX eq_refl) = Undefined.
Proof. rewrite _set_of_range_cases. reflexivity. Qed.

(** On [ac] the optional string [ab] returns true back at the start. *)
Lemma absorbed_failure_is_undone_witness :
  fst (parse_expr G_calc 6 TERM (_optional (_string [97; 98]%Z))
         (start [97; 99]%Z)) = Ret true /\
  m_pos (con (snd (parse_expr G_calc 6 TERM (_optional (_string [97; 98]%Z))
                     (start [97; 99]%Z)))) = pos_begin.
Proof.
  pose proof (absorbed_failure_is_undone G_calc 5 TERM
                (_string [97; 98]%Z) _eof (start [97; 99]%Z)
                (snd (parse_expr G_calc 5 TERM (_string [97; 98]%Z)
                        (start [97; 99]%Z)))
                eq_refl) as H.
  cbv zeta in H. destruct H as (P & _ & O & _).
  rewrite O. split; [reflexivity | exact P].
Defined.

(** A choice between a character and an optional character, in the two
    modes. *)
Lemma modes_agree_without_sequencing_witness :
  parse_expr G_calc 5 NON_TERM
    (_choice (_char 97) (_optional (_char 98))) (start [98; 99]%Z)
  = parse_expr G_calc 5 TERM
      (_choice (_char 97) (_optional (_char 98))) (start [98; 99]%Z).
Proof.
  apply modes_agree_without_sequencing. reflexivity.
Defined.

(** The two procedure calls of [1 + 2]. *)
Lemma parse_calls_procs_on_input_ranges_witness :
  Forall (fun c => m_it (pc_begin c) <= m_it (pc_end c) /\
                   m_it (pc_end c) <= 5)
    [mk_proc_call 2 (mk_pos 0 1 1) (mk_pos 1 1 2);
     mk_proc_call 2 (mk_pos 4 1 5) (mk_pos 5 1 6)].
Proof.
  apply (parse_calls_procs_on_input_ranges G_calc 40
           [49; 32; 43; 32; 50]%Z 1 0 [] [] fresh_rules).
  reflexivity.
Defined.


(** [num] on [7]: one record, from offset 0 to offset 1. *)
Lemma rule_call_logs_its_range_witness :
  fst (parse_rule G_calc 7 NON_TERM 2 (start [55]%Z)) = Ret true /\
  log (snd (parse_rule G_calc 7 NON_TERM 2 (start [55]%Z)))
  = [mk_match 2 (mk_pos 0 1 1) (mk_pos 1 1 2)].
Proof.
  pose proof (rule_call_logs_its_range G_calc 5 NON_TERM 2 (start [55]%Z)
                (snd (parse_expr G_calc 5 NON_TERM (get_expr G_calc 2)
                        (set_rpos 2 0 (start [55]%Z))))
                true eq_refl) as H.
  destruct H as (O & _ & _ & L).
  - discriminate.
  - reflexivity.
  - split; [exact O | exact L].
Defined.

(** [expr] entered again at offset 0 of [1], and entered first. *)
Lemma left_recursion_ends_by_the_signal_witness :
  fst (parse_rule G_calc 30 NON_TERM 1 (set_rpos 1 0 (start [49]%Z)))
  <> Ret true /\
  fst (parse_rule G_calc 30 NON_TERM 1 (start [49]%Z)) <> Throw 1.
Proof.
  split.
  - apply (left_recursion_ends_by_the_signal G_calc 30 NON_TERM 1
             (set_rpos 1 0 (start [49]%Z)) eq_refl).
    reflexivity.
  - apply (left_recursion_ends_by_the_signal G_calc 30 NON_TERM 1
             (start [49]%Z) eq_refl).
    discriminate.
Defined.

(** [num] on [7] leaves its state as it found it. *)
Lemma own_state_restored_on_return_witness :
  rs_mode (rules (snd (parse_rule G_calc 7 NON_TERM 2 (start [55]%Z))) 2)
  = _PARSE /\
  rs_pos (rules (snd (parse_rule G_calc 7 NON_TERM 2 (start [55]%Z))) 2)
  = (-1)%Z.
Proof.
  apply (own_state_restored_on_return G_calc 7 NON_TERM 2 (start [55]%Z)
           (snd (parse_rule G_calc 7 NON_TERM 2 (start [55]%Z))) true).
  reflexivity.
Defined.

(** On [ac] the rule [A = A 'b' | 'a' A | 'c'] passes through the inner
    call that leaves [A] in the state (1, PARSE); the outermost call of
    [A] returns true with [A] in its initial state. *)
Example nested_lr_leaves_rules_fresh :
  fst (parse_rule G_nested_lr 26 NON_TERM 1 (start [97; 99]%Z)) = Ret true /\
  rules (snd (parse_rule G_nested_lr 26 NON_TERM 1 (start [97; 99]%Z))) 1
  = rule_state_init.
Proof. split; reflexivity. Qed.
